(** * The koubei proxy handlers of china-auto-dashboard

    The repository holds two versions of one Cloudflare Pages function,
    [onRequestGet]: the strict one (functions/api/koubei.js), which answers
    400 when the query has no usable [id], and the lenient one, which falls
    back to the id "197".  Both fetch a static JSON file, answer 404 when the
    fetch is not ok, and otherwise parse the body and serialize it again.

    The handlers are embedded over a model of the part of the JavaScript
    runtime they call: strings as sequences of UTF-16 code units, Number
    values as binary64 floats, [JSON.parse] and [JSON.stringify],
    [URLSearchParams.get], [fetch] and [Response]. *)

From Stdlib Require Import String Ascii ZArith List Bool Lia.
Import ListNotations.
Local Open Scope Z_scope.

(* ===================================================================== *)
(** * JavaScript strings *)
(* ===================================================================== *)

Module JsStr.

(** A JavaScript string is a sequence of 16-bit code units. *)
Definition CodeUnit := Z.
Definition JsString := list CodeUnit.

Definition ch (a : ascii) : CodeUnit := Z.of_N (N_of_ascii a).

(** The string of a literal of the source (all literals there are ASCII). *)
Definition js (s : string) : JsString := map ch (list_ascii_of_string s).

Fixpoint eqb (s t : JsString) : bool :=
  match s, t with
  | [], [] => true
  | c :: s', d :: t' => (c =? d) && eqb s' t'
  | _, _ => false
  end.

(** [join sep parts]: the parts with [sep] between them. *)
Fixpoint join (sep : JsString) (parts : list JsString) : JsString :=
  match parts with
  | [] => []
  | [p] => p
  | p :: ps => p ++ sep ++ join sep ps
  end.

(** The double quote, code unit 0x22. *)
Definition dquote : CodeUnit := 34.

End JsStr.
Export JsStr.

(* ===================================================================== *)
(** * Number values *)
(* ===================================================================== *)

Module Num.

(** The Number values [JSON.parse] can produce: the finite binary64 values
    [(-1)^neg * m * 2^e] and the two infinities (a literal too large for
    binary64 converts to an infinity).  NaN has no JSON literal and is left
    out.  A finite value is kept in canonical form, see [canonicalb]. *)
Inductive Number : Type :=
| Finite (neg : bool) (m e : Z)
| Infinite (neg : bool).

Definition emin : Z := -1074.
Definition emax : Z := 971.

(** Canonical form: zero and the subnormals have exponent [emin], the other
    values have a 53-bit significand. *)
Definition canonicalb (x : Number) : bool :=
  match x with
  | Finite _ m e =>
      (0 <=? m) && (m <? 2 ^ 53) && (emin <=? e) && (e <=? emax)
      && ((2 ^ 52 <=? m) || (e =? emin))
  | Infinite _ => true
  end.

Definition eqb (x y : Number) : bool :=
  match x, y with
  | Finite n1 m1 e1, Finite n2 m2 e2 =>
      Bool.eqb n1 n2 && (m1 =? m2) && (e1 =? e2)
  | Infinite n1, Infinite n2 => Bool.eqb n1 n2
  | _, _ => false
  end.

Definition is_finite (x : Number) : bool :=
  match x with Finite _ _ _ => true | Infinite _ => false end.

(** ** Decimal to binary64: round to nearest, ties to even *)

(** The fraction [a / b] of the decimal [s * 10^d]. *)
Definition frac_of (s d : Z) : Z * Z :=
  if 0 <=? d then (s * 10 ^ d, 1) else (s, 10 ^ (- d)).

(** [floor (log2 (a / b))] for positive [a] and [b]. *)
Definition ilog2_frac (a b : Z) : Z :=
  let t := Z.log2 a - Z.log2 b in
  if a * 2 ^ Z.max 0 (- t) <? b * 2 ^ Z.max 0 t then t - 1 else t.

(** The binary64 value nearest to [a / b] (for [0 <= a], [0 < b]), with the
    given sign; a value past the largest finite one is an infinity. *)
Definition round_frac (neg : bool) (a b : Z) : Number :=
  if a =? 0 then Finite neg 0 emin
  else
    let e := Z.max (ilog2_frac a b - 52) emin in
    let num := a * 2 ^ Z.max 0 (- e) in
    let den := b * 2 ^ Z.max 0 e in
    let q := num / den in
    let r := num mod den in
    let q' := if (den <? 2 * r) || ((den =? 2 * r) && Z.odd q)
              then q + 1 else q in
    let m := if q' =? 2 ^ 53 then 2 ^ 52 else q' in
    let e' := if q' =? 2 ^ 53 then e + 1 else e in
    if emax <? e' then Infinite neg else Finite neg m e'.

(** The Number value of the decimal [(-1)^neg * s * 10^d]. *)
Definition decimal_to_number (neg : bool) (s d : Z) : Number :=
  round_frac neg (fst (frac_of s d)) (snd (frac_of s d)).

(** ** Decimal digits *)

Fixpoint digits_aux (fuel : nat) (n : Z) (acc : list Z) : list Z :=
  match fuel with
  | O => n :: acc
  | S f => if n <? 10 then n :: acc
           else digits_aux f (n / 10) (n mod 10 :: acc)
  end.

(** The decimal digits of [n >= 0], most significant first; a number below
    [2^(k+1)] has at most [k + 1] digits. *)
Definition digits (n : Z) : list Z :=
  digits_aux (Z.to_nat (Z.log2 n)) n [].

Definition digit_char (d : Z) : CodeUnit := d + 48.
Definition digit_chars (n : Z) : JsString := map digit_char (digits n).

Definition is_digit (c : CodeUnit) : bool := (48 <=? c) && (c <=? 57).

(** The number written by a sequence of digit characters. *)
Definition digits_value (ds : JsString) : Z :=
  fold_left (fun acc c => acc * 10 + (c - 48)) ds 0.

(** ** Number::toString, radix 10 *)

(** [floor (a / b / 10^d)]. *)
Definition scaled_floor (a b d : Z) : Z :=
  if 0 <=? d then a / (b * 10 ^ d) else (a * 10 ^ (- d)) / b.

(** The [n] with [10^(n-1) <= a / b < 10^n], for [a / b] at least
    [10^(-400)] (the least positive binary64 value is above [10^(-324)]). *)
Definition decimal_magnitude (a b : Z) : Z :=
  Z.of_nat (length (digits (a * 10 ^ 400 / b))) - 400.

(** The fraction of the finite value [m * 2^e]. *)
Definition frac_of_binary (m e : Z) : Z * Z :=
  if 0 <=? e then (m * 2 ^ e, 1) else (m, 2 ^ (- e)).

(** Does the decimal [s * 10^d] convert to [Finite false m e]? *)
Definition converts_to (m e s d : Z) : bool :=
  eqb (decimal_to_number false s d) (Finite false m e).

(** Is [a / b] nearer to [s * 10^d] than to [(s + 1) * 10^d] (on a tie:
    is [s] even)? *)
Definition nearer_low (a b s d : Z) : bool :=
  let lhs := 2 * a * 10 ^ Z.max 0 (- d) in
  let rhs := (2 * s + 1) * b * 10 ^ Z.max 0 d in
  (lhs <? rhs) || ((lhs =? rhs) && Z.even s).

(** The candidates with [k] digits: the two neighbours of the value on the
    grid of step [10^(n-k)]; when both convert to the value the nearer one
    is taken.  The upper neighbour [10^k] is written [1 * 10^n]. *)
Definition candidate (m e n k : Z) : option (Z * Z) :=
  let a := fst (frac_of_binary m e) in
  let b := snd (frac_of_binary m e) in
  let d := n - k in
  let lo := scaled_floor a b d in
  let hi := if lo + 1 =? 10 ^ k then (1, n) else (lo + 1, d) in
  let lo_ok := converts_to m e lo d in
  let hi_ok := converts_to m e (fst hi) (snd hi) in
  if lo_ok && hi_ok then Some (if nearer_low a b lo d then (lo, d) else hi)
  else if lo_ok then Some (lo, d)
  else if hi_ok then Some hi
  else None.

(** The candidate of the first number of digits, from [k] on and trying
    [fuel] of them, that has one. *)
Fixpoint shortest_from (fuel : nat) (m e n k : Z) : option (Z * Z) :=
  match fuel with
  | O => None
  | S f => match candidate m e n k with
           | Some sd => Some sd
           | None => shortest_from f m e n (k + 1)
           end
  end.

(** The exact decimal expansion of [m * 2^e]. *)
Definition exact_decimal (m e : Z) : Z * Z :=
  if 0 <=? e then (m * 2 ^ e, 0) else (m * 5 ^ (- e), e).

(** The decimal [s * 10^d] with the fewest digits [s] that converts back to
    [m * 2^e] ([m > 0]).  Seventeen digits identify any binary64 value, so
    the search finds one; the exact expansion makes the function total
    without depending on that fact. *)
Definition shortest_decimal (m e : Z) : Z * Z :=
  let a := fst (frac_of_binary m e) in
  let b := snd (frac_of_binary m e) in
  match shortest_from 17 m e (decimal_magnitude a b) 1 with
  | Some sd => sd
  | None => exact_decimal m e
  end.

Definition zeros (n : Z) : JsString := repeat (ch "0") (Z.to_nat n).

(** The exponent part [e+x] or [e-x] for the decimal exponent [x]. *)
Definition exponent_part (x : Z) : JsString :=
  ch "e" :: (if x <? 0 then ch "-" else ch "+") :: digit_chars (Z.abs x).

(** The layout rules of Number::toString for the digits [ds] (there are
    [k] of them) of a value [0.ds * 10^n]. *)
Definition layout (ds : JsString) (n : Z) : JsString :=
  let k := Z.of_nat (length ds) in
  if (k <=? n) && (n <=? 21) then ds ++ zeros (n - k)
  else if (0 <? n) && (n <=? 21) then
    firstn (Z.to_nat n) ds ++ ch "." :: skipn (Z.to_nat n) ds
  else if (-6 <? n) && (n <=? 0) then
    ch "0" :: ch "." :: zeros (- n) ++ ds
  else if k =? 1 then ds ++ exponent_part (n - 1)
  else firstn 1 ds ++ ch "." :: skipn 1 ds ++ exponent_part (n - 1).

(** Number::toString(x), radix 10. *)
Definition to_string (x : Number) : JsString :=
  match x with
  | Infinite neg => (if neg then [ch "-"] else []) ++ js "Infinity"
  | Finite neg m e =>
      if m =? 0 then js "0"
      else
        let sd := shortest_decimal m e in
        let ds := digit_chars (fst sd) in
        (if neg then [ch "-"] else [])
          ++ layout ds (snd sd + Z.of_nat (length ds))
  end.

(** ** The JSON number literal *)

Fixpoint span_digits (s : JsString) : JsString * JsString :=
  match s with
  | c :: r => if is_digit c
              then let (ds, rest) := span_digits r in (c :: ds, rest)
              else ([], s)
  | [] => ([], [])
  end.

(** The integer part of a JSON number: a single 0, or digits that do not
    start with 0. *)
Definition int_part_ok (ds : JsString) : bool :=
  match ds with
  | [] => false
  | [_] => true
  | c :: _ => negb (c =? ch "0")
  end.

(** The optional fraction: [None] when a dot is not followed by a digit. *)
Definition lex_fraction (s : JsString) : option (JsString * JsString) :=
  match s with
  | c :: r =>
      if c =? ch "." then
        match fst (span_digits r) with
        | [] => None
        | fp => Some (fp, snd (span_digits r))
        end
      else Some ([], s)
  | [] => Some ([], s)
  end.

(** The optional exponent: [None] when e/E is not followed by digits. *)
Definition lex_exponent (s : JsString) : option (Z * JsString) :=
  match s with
  | c :: r =>
      if (c =? ch "e") || (c =? ch "E") then
        let sg := match r with
                  | c' :: r' => if c' =? ch "-" then (true, r')
                                else if c' =? ch "+" then (false, r')
                                else (false, r)
                  | [] => (false, r)
                  end in
        match fst (span_digits (snd sg)) with
        | [] => None
        | ep => Some ((if fst sg then - digits_value ep else digits_value ep),
                      snd (span_digits (snd sg)))
        end
      else Some (0, s)
  | [] => Some (0, s)
  end.

(** The JSON number at the front of [s], its sign already read, and the
    rest of [s]. *)
Definition lex_unsigned (neg : bool) (s : JsString)
  : option (Number * JsString) :=
  let ip := fst (span_digits s) in
  if int_part_ok ip then
    match lex_fraction (snd (span_digits s)) with
    | Some (fp, s2) =>
        match lex_exponent s2 with
        | Some (x, s3) =>
            Some (decimal_to_number neg (digits_value (ip ++ fp))
                    (x - Z.of_nat (length fp)), s3)
        | None => None
        end
    | None => None
    end
  else None.

(** The JSON number at the front of [s] and the rest of [s]. *)
Definition lex_number (s : JsString) : option (Number * JsString) :=
  match s with
  | c :: r => if c =? ch "-" then lex_unsigned true r
              else lex_unsigned false s
  | [] => None
  end.

(** ** Predicates of the statements about numbers *)

(** [a / b < 2^t], written without fractions. *)
Definition below (a b t : Z) : Prop :=
  a * 2 ^ Z.max 0 (- t) < b * 2 ^ Z.max 0 t.

(** [a / b = m * 2^e], written without fractions. *)
Definition represents (a b m e : Z) : Prop :=
  a * 2 ^ Z.max 0 (- e) = m * (b * 2 ^ Z.max 0 e).

(** What a finite value is after [to_string] and the conversion back: the
    same value, but for the negative zero, which is written 0. *)
Definition normalize (x : Number) : Number :=
  match x with
  | Finite neg m e => if m =? 0 then Finite false 0 emin else x
  | Infinite _ => x
  end.

(** The value with another sign. *)
Definition with_sign (neg : bool) (x : Number) : Number :=
  match x with
  | Finite _ m e => Finite neg m e
  | Infinite _ => Infinite neg
  end.

Definition digit (d : Z) : Prop := 0 <= d <= 9.

(** The rest does not go on with a digit. *)
Definition no_digit_ahead (rest : JsString) : Prop :=
  match rest with
  | [] => True
  | c :: _ => is_digit c = false
  end.

(** The rest cannot continue a number literal: it is empty or starts with
    something else than a digit, a dot or an exponent mark. *)
Definition number_end (rest : JsString) : Prop :=
  match rest with
  | [] => True
  | c :: _ => is_digit c = false /\ c <> ch "." /\ c <> ch "e" /\ c <> ch "E"
  end.

End Num.

(* ===================================================================== *)
(** * JSON values, JSON.stringify and JSON.parse *)
(* ===================================================================== *)

Module Json.

#[local] Unset Elimination Schemes.

(** The values [JSON.parse] produces.  An object is the list of its own
    properties in the order [[OwnPropertyKeys]] reports them. *)
Inductive Value : Type :=
| VNull
| VBool (b : bool)
| VNumber (x : Num.Number)
| VString (s : JsString)
| VArray (items : list Value)
| VObject (props : list (JsString * Value)).
#[local] Set Elimination Schemes.

(** ** Objects: property order and CreateDataProperty *)

(** An array index is the canonical decimal of an integer below
    [2^32 - 1]; such keys come first, in ascending order, then the other
    keys in the order of their creation. *)
Definition array_index (k : JsString) : option Z :=
  if forallb Num.is_digit k && Num.int_part_ok k
     && (Num.digits_value k <? 2 ^ 32 - 1)
  then Some (Num.digits_value k) else None.

Definition goes_before (k k' : JsString) : bool :=
  match array_index k, array_index k' with
  | Some i, Some j => i <? j
  | Some _, None => true
  | None, _ => false
  end.

Section Properties.
Context {V : Type}.

Definition has_key (k : JsString) (o : list (JsString * V)) : bool :=
  existsb (fun kv => JsStr.eqb k (fst kv)) o.

Fixpoint replace_value (k : JsString) (v : V) (o : list (JsString * V))
  : list (JsString * V) :=
  match o with
  | [] => []
  | kv :: o' => if JsStr.eqb k (fst kv) then (k, v) :: o'
                else kv :: replace_value k v o'
  end.

Fixpoint insert_key (k : JsString) (v : V) (o : list (JsString * V))
  : list (JsString * V) :=
  match o with
  | [] => [(k, v)]
  | kv :: o' => if goes_before k (fst kv) then (k, v) :: o
                else kv :: insert_key k v o'
  end.

(** CreateDataProperty(o, k, v): an existing property keeps its place and
    takes the new value, a new one is put where the key order wants it. *)
Definition define_property (k : JsString) (v : V) (o : list (JsString * V))
  : list (JsString * V) :=
  if has_key k o then replace_value k v o else insert_key k v o.
End Properties.

(** ** QuoteJSONString *)

Definition hex_char (d : Z) : CodeUnit := if d <? 10 then d + 48 else d + 87.

(** UnicodeEscape: backslash, u and four lowercase hexadecimal digits. *)
Definition unicode_escape (c : CodeUnit) : JsString :=
  [ch "\"; ch "u"; hex_char (c / 4096 mod 16); hex_char (c / 256 mod 16);
   hex_char (c / 16 mod 16); hex_char (c mod 16)].

Definition is_high_surrogate (c : CodeUnit) : bool :=
  (55296 <=? c) && (c <=? 56319).
Definition is_low_surrogate (c : CodeUnit) : bool :=
  (56320 <=? c) && (c <=? 57343).

(** The text for a code unit that is not half of a surrogate pair. *)
Definition quote_unit (c : CodeUnit) : JsString :=
  if c =? 8 then [ch "\"; ch "b"]
  else if c =? 9 then [ch "\"; ch "t"]
  else if c =? 10 then [ch "\"; ch "n"]
  else if c =? 12 then [ch "\"; ch "f"]
  else if c =? 13 then [ch "\"; ch "r"]
  else if c =? 34 then [ch "\"; dquote]
  else if c =? 92 then [ch "\"; ch "\"]
  else if (c <? 32) || is_high_surrogate c || is_low_surrogate c
  then unicode_escape c
  else [c].

(** The text between the quotes: a surrogate pair is copied, every other
    code unit goes through [quote_unit]. *)
Fixpoint quote_body (s : JsString) : JsString :=
  match s with
  | [] => []
  | c :: r =>
      match r with
      | c2 :: r2 =>
          if is_high_surrogate c && is_low_surrogate c2
          then c :: c2 :: quote_body r2
          else quote_unit c ++ quote_body r
      | [] => quote_unit c
      end
  end.

Definition quote (s : JsString) : JsString :=
  dquote :: quote_body s ++ [dquote].

(** ** SerializeJSONProperty *)

Definition newline : CodeUnit := 10.

(** The text of an array or an object from the texts of its parts. *)
Definition wrap (opening closing : CodeUnit) (gap indent : JsString)
    (parts : list JsString) : JsString :=
  match parts with
  | [] => [opening; closing]
  | _ =>
      match gap with
      | [] => opening :: join [ch ","] parts ++ [closing]
      | _ => opening :: newline :: (indent ++ gap)
             ++ join (ch "," :: newline :: indent ++ gap) parts
             ++ newline :: indent ++ [closing]
      end
  end.

Definition colon (gap : JsString) : JsString :=
  match gap with [] => [ch ":"] | _ => [ch ":"; ch " "] end.

Fixpoint serialize (gap indent : JsString) (v : Value) : JsString :=
  match v with
  | VNull => js "null"
  | VBool b => if b then js "true" else js "false"
  | VNumber x => if Num.is_finite x then Num.to_string x else js "null"
  | VString s => quote s
  | VArray items =>
      wrap (ch "[") (ch "]") gap indent
        (map (serialize gap (indent ++ gap)) items)
  | VObject props =>
      wrap (ch "{") (ch "}") gap indent
        (map (fun kv : JsString * Value =>
                let (k, v') := kv in
                quote k ++ colon gap ++ serialize gap (indent ++ gap) v')
           props)
  end.

(** The gap of a numeric [space] argument: at most ten spaces. *)
Definition gap_of (space : option Z) : JsString :=
  match space with
  | Some n => repeat (ch " ") (Z.to_nat (Z.min 10 n))
  | None => []
  end.

(** [JSON.stringify(value, null, space)], [space] a number or left out:
    the text the call returns when it returns.  That an engine can give up
    on a value (RangeError) is not part of this function; the call as the
    handlers make it, with that exception, is [Runtime.JSON_stringify]. *)
Definition stringify (v : Value) (space : option Z) : JsString :=
  serialize (gap_of space) [] v.

(** ** JSON.parse *)

Definition is_ws (c : CodeUnit) : bool :=
  (c =? 32) || (c =? 9) || (c =? 10) || (c =? 13).

Fixpoint skip_ws (s : JsString) : JsString :=
  match s with
  | c :: r => if is_ws c then skip_ws r else s
  | [] => []
  end.

Definition hex_value (c : CodeUnit) : option Z :=
  if (48 <=? c) && (c <=? 57) then Some (c - 48)
  else if (97 <=? c) && (c <=? 102) then Some (c - 87)
  else if (65 <=? c) && (c <=? 70) then Some (c - 55)
  else None.

Definition hex4_value (h1 h2 h3 h4 : CodeUnit) : option CodeUnit :=
  match hex_value h1, hex_value h2, hex_value h3, hex_value h4 with
  | Some a, Some b, Some c, Some d => Some (a * 4096 + b * 256 + c * 16 + d)
  | _, _, _, _ => None
  end.

(** The code unit of a one-letter escape. *)
Definition escape_value (c : CodeUnit) : option CodeUnit :=
  if c =? 34 then Some 34
  else if c =? 47 then Some 47
  else if c =? 92 then Some 92
  else if c =? ch "b" then Some 8
  else if c =? ch "f" then Some 12
  else if c =? ch "n" then Some 10
  else if c =? ch "r" then Some 13
  else if c =? ch "t" then Some 9
  else None.

Definition cons_unit (c : CodeUnit) (res : option (JsString * JsString))
  : option (JsString * JsString) :=
  match res with
  | Some (str, rest) => Some (c :: str, rest)
  | None => None
  end.

(** The string whose opening quote was read: its value and what follows
    the closing quote. *)
Fixpoint parse_string (s : JsString) : option (JsString * JsString) :=
  match s with
  | [] => None
  | c :: r =>
      if c =? 34 then Some ([], r)
      else if c =? 92 then
        match r with
        | [] => None
        | x :: r1 =>
            if x =? ch "u" then
              match r1 with
              | h1 :: h2 :: h3 :: h4 :: r2 =>
                  match hex4_value h1 h2 h3 h4 with
                  | Some u => cons_unit u (parse_string r2)
                  | None => None
                  end
              | _ => None
              end
            else
              match escape_value x with
              | Some u => cons_unit u (parse_string r1)
              | None => None
              end
        end
      else if c <? 32 then None
      else cons_unit c (parse_string r)
  end.

(** [s] without the prefix [p], when it starts with it. *)
Fixpoint strip_prefix (p s : JsString) : option JsString :=
  match p, s with
  | [], _ => Some s
  | c :: p', d :: s' => if c =? d then strip_prefix p' s' else None
  | _ :: _, [] => None
  end.

(** What a parser returns: a value and the unread rest. *)
Definition Parsed : Type := option (Value * JsString).

(** The elements of an array after the first was found to exist: a value,
    then a comma and more, or the closing bracket. *)
Fixpoint parse_elements (pv : JsString -> Parsed) (fuel : nat)
    (s : JsString) (acc : list Value) : Parsed :=
  match fuel with
  | O => None
  | S f =>
      match pv s with
      | Some (v, r) =>
          match skip_ws r with
          | c :: r' =>
              if c =? ch "," then parse_elements pv f r' (v :: acc)
              else if c =? ch "]" then Some (VArray (rev (v :: acc)), r')
              else None
          | [] => None
          end
      | None => None
      end
  end.

(** The members of an object: a string, a colon, a value, then a comma and
    more, or the closing brace.  Each member is defined on the object in
    turn, so of two members with one key the later gives the value. *)
Fixpoint parse_members (pv : JsString -> Parsed) (fuel : nat)
    (s : JsString) (acc : list (JsString * Value)) : Parsed :=
  match fuel with
  | O => None
  | S f =>
      match skip_ws s with
      | q :: r0 =>
          if q =? 34 then
            match parse_string r0 with
            | Some (k, r1) =>
                match skip_ws r1 with
                | c1 :: r2 =>
                    if c1 =? ch ":" then
                      match pv r2 with
                      | Some (v, r3) =>
                          match skip_ws r3 with
                          | c :: r4 =>
                              if c =? ch "," then
                                parse_members pv f r4 (define_property k v acc)
                              else if c =? ch "}" then
                                Some (VObject (define_property k v acc), r4)
                              else None
                          | [] => None
                          end
                      | None => None
                      end
                    else None
                | [] => None
                end
            | None => None
            end
          else None
      | [] => None
      end
  end.

Definition with_value (v : Value) (r : option JsString) : Parsed :=
  match r with Some r' => Some (v, r') | None => None end.

(** The JSON value at the front of [s], after white space. *)
Fixpoint parse_value (fuel : nat) (s : JsString) : Parsed :=
  match fuel with
  | O => None
  | S f =>
      match skip_ws s with
      | [] => None
      | c :: r =>
          if c =? ch "{" then
            match skip_ws r with
            | c' :: r' => if c' =? ch "}" then Some (VObject [], r')
                          else parse_members (parse_value f) f r []
            | [] => None
            end
          else if c =? ch "[" then
            match skip_ws r with
            | c' :: r' => if c' =? ch "]" then Some (VArray [], r')
                          else parse_elements (parse_value f) f r []
            | [] => None
            end
          else if c =? 34 then
            match parse_string r with
            | Some (str, r') => Some (VString str, r')
            | None => None
            end
          else if c =? ch "t" then
            with_value (VBool true) (strip_prefix (js "rue") r)
          else if c =? ch "f" then
            with_value (VBool false) (strip_prefix (js "alse") r)
          else if c =? ch "n" then
            with_value VNull (strip_prefix (js "ull") r)
          else
            match Num.lex_number (c :: r) with
            | Some (x, r') => Some (VNumber x, r')
            | None => None
            end
      end
  end.

(** [JSON.parse(text)]: one value with nothing but white space around it;
    [None] stands for the SyntaxError.  A value never nests deeper than
    the text is long, so the fuel is enough ([Fuel.parse_value_fuel]). *)
Definition parse (text : JsString) : option Value :=
  match parse_value (S (length text)) text with
  | Some (v, r) => match skip_ws r with [] => Some v | _ :: _ => None end
  | None => None
  end.

(** ** Predicates of the statements about JSON values *)

(** A string whose code units are not negative. *)
Definition wf_string (s : JsString) : bool := forallb (fun c => 0 <=? c) s.

(** The key [k] may follow the key [k'] in an object: it is another key and
    the order of properties does not put it before [k']. *)
Definition may_follow (k k' : JsString) : bool :=
  negb (JsStr.eqb k k') && negb (goes_before k k').

(** Keys in the order of an object's properties, each once. *)
Fixpoint ordered_keys (ks : list JsString) : bool :=
  match ks with
  | [] => true
  | k :: rest => forallb (fun k2 => may_follow k2 k) rest && ordered_keys rest
  end.

(** A value as [parse] builds them: numbers in canonical form, objects with
    their keys in order. *)
Fixpoint wf (v : Value) : bool :=
  match v with
  | VNull => true
  | VBool _ => true
  | VNumber x => Num.canonicalb x
  | VString s => wf_string s
  | VArray items => forallb wf items
  | VObject props =>
      ordered_keys (map fst props)
      && forallb (fun kv : JsString * Value =>
                    let (k, v') := kv in wf_string k && wf v') props
  end.

(** The properties of an object in canonical form; also the invariant of
    the object [parse_members] builds. *)
Definition wf_props (o : list (JsString * Value)) : bool :=
  ordered_keys (map fst o)
  && forallb (fun kv : JsString * Value =>
                let (k, v') := kv in wf_string k && wf v') o.

(** How deep the arrays and objects of a value nest. *)
Fixpoint depth (v : Value) : nat :=
  match v with
  | VArray items =>
      S (fold_right (fun x d => Nat.max (depth x) d) 0%nat items)
  | VObject props =>
      S (fold_right (fun (kv : JsString * Value) d =>
                       let (_, x) := kv in Nat.max (depth x) d) 0%nat props)
  | _ => 0%nat
  end.


(** What [stringify] and [parse] make of a value: an infinity is written
    null, the negative zero is written 0, all else comes back as it was. *)
Fixpoint normalize (v : Value) : Value :=
  match v with
  | VNumber x => if Num.is_finite x then VNumber (Num.normalize x) else VNull
  | VArray items => VArray (map normalize items)
  | VObject props =>
      VObject (map (fun kv : JsString * Value =>
                      let (k, v') := kv in (k, normalize v')) props)
  | _ => v
  end.




(** All of [s] is white space. *)
Definition blank (s : JsString) : bool := forallb is_ws s.

(** A text that starts as a value does: not with white space, a comma or
    a closing bracket or brace. *)
Definition starts_value (s : JsString) : Prop :=
  exists c l, s = c :: l /\ is_ws c = false
              /\ (c =? ch "]") = false /\ (c =? ch "}") = false.

(** The text of a member of an object, with [space] after the colon, and
    the member it is read as. *)
Definition member_text (ser : Value -> JsString) (space : JsString)
    (kv : JsString * Value) : JsString :=
  let (k, v') := kv in quote k ++ (ch ":" :: space) ++ ser v'.

Definition member_value (kv : JsString * Value) : JsString * Value :=
  let (k, v') := kv in (k, normalize v').

(** What may follow a value in a text: the end, a comma, a closing bracket
    or brace, or white space. *)
Definition value_end (rest : JsString) : Prop :=
  match rest with
  | [] => True
  | c :: _ => c = ch "," \/ c = ch "]" \/ c = ch "}" \/ is_ws c = true
  end.

(** The parser [pv] reads the text [ser x], after white space and before
    the end of a value, as the normalized [x]. *)
Definition reads (pv : JsString -> Parsed) (ser : Value -> JsString)
    (x : Value) : Prop :=
  forall lead tail, blank lead = true -> value_end tail ->
  pv (lead ++ ser x ++ tail) = Some (normalize x, tail).

(** A parser that leaves less than it was given. *)
Definition consumes (pv : JsString -> Parsed) : Prop :=
  forall s v r, pv s = Some (v, r) -> (length r < length s)%nat.

(** Two parsers that agree on the texts of at most [b] code units. *)
Definition agree (b : nat) (pv pv' : JsString -> Parsed) : Prop :=
  forall s, (length s <= b)%nat -> pv s = pv' s.

End Json.

(* ===================================================================== *)
(** * The runtime: URL, Response, fetch *)
(* ===================================================================== *)

Module Runtime.

Import Json.

(** ** Values that may be null, and their coercions *)

(** [URLSearchParams.get] returns a string or null. *)
Definition Nullable (A : Type) : Type := option A.

(** ToBoolean on a string or null: null and the empty string are falsy. *)
Definition truthy (x : Nullable JsString) : bool :=
  match x with
  | Some (_ :: _) => true
  | Some [] => false
  | None => false
  end.

(** ToString on a string or null, as a template literal applies it. *)
Definition ToString (x : Nullable JsString) : JsString :=
  match x with
  | Some s => s
  | None => js "null"
  end.

(** [x || d] for a default [d] that is a string. *)
Definition or_default (x : Nullable JsString) (d : JsString) : JsString :=
  if truthy x then ToString x else d.

(** ** URL *)

(** A parsed URL.  The runtime hands the handler the serialized absolute
    URL of the request, which [new URL] always parses; the model carries it
    in parsed form, with the query as [searchParams] holds it: the list of
    its name-value pairs, decoded, in the order of the query string. *)
Record URL : Type := {
  href : JsString;
  searchParams : list (JsString * JsString)
}.

(** [URLSearchParams.get(name)]: the value of the first pair with that
    name, null when there is none. *)
Fixpoint URLSearchParams_get (params : list (JsString * JsString))
    (name : JsString) : Nullable JsString :=
  match params with
  | [] => None
  | (n, v) :: rest =>
      if JsStr.eqb n name then Some v else URLSearchParams_get rest name
  end.

(** ** Request, Response and the event context *)

Definition HeaderList : Type := list (JsString * JsString).

Record Request : Type := {
  method : JsString;
  url : URL;
  request_headers : HeaderList
}.

(** The context of a Pages function; the handlers read [request] only. *)
Record EventContext : Type := {
  request : Request;
  env : list (JsString * JsString);
  params : list (JsString * JsString)
}.

Record Response : Type := {
  status : Z;
  headers : HeaderList;
  body : JsString
}.

(** The second argument of [new Response]. *)
Record ResponseInit : Type := {
  init_status : option Z;
  init_headers : HeaderList
}.

(** [new Response(body, init)]: the status is 200 unless [init] has one. *)
Definition new_Response (text : JsString) (init : ResponseInit) : Response :=
  {| status := match init_status init with Some s => s | None => 200 end;
     headers := init_headers init;
     body := text |}.

(** [res.ok]: the status is in the range 200 to 299. *)
Definition ok (res : Response) : bool :=
  (200 <=? status res) && (status res <=? 299).

(** ** Asynchronous computations *)

Inductive Exception : Type :=
| TypeError      (* fetch: the network request failed *)
| SyntaxError    (* JSON.parse: the text is not JSON *)
| RangeError.    (* JSON.stringify: the value is more than the engine
                    can walk or write *)

(** How an awaited computation completes: with a value, or by a rejection
    that nothing caught. *)
Inductive Completion (A : Type) : Type :=
| Returns (a : A)
| Throws (e : Exception).
Arguments Returns {A} a.
Arguments Throws {A} e.

(** What a fetch of a URL meets: no response at all, or a response (the
    body is the decoded text). *)
Inductive FetchOutcome : Type :=
| NetworkFailure
| Responds (res : Response).

(** The world of an invocation: what lies behind each URL, and the log of
    the fetches so far.  A URL is here the string the handler passes to
    [fetch], before [fetch] parses it: the log tells what the handler
    asked for, not what goes over the wire. *)
Record World : Type := {
  upstream : JsString -> FetchOutcome;
  fetched : list JsString
}.

Definition Async (A : Type) : Type := World -> Completion A * World.

Definition ret {A : Type} (a : A) : Async A := fun w => (Returns a, w).

(** [await]: go on with the value, or stop at the rejection. *)
Definition bind {A B : Type} (m : Async A) (k : A -> Async B) : Async B :=
  fun w =>
    match m w with
    | (Returns a, w') => k a w'
    | (Throws e, w') => (Throws e, w')
    end.

Notation "'let*' x ':=' 'await' m 'in' k" := (bind m (fun x => k))
  (at level 10, x name, m at level 100, k at level 200).

(** A call that may throw: the same sequencing, without the [await]. *)
Notation "'let*' x ':=' 'call' m 'in' k" := (bind m (fun x => k))
  (at level 10, x name, m at level 100, k at level 200).

(** [fetch(url)]: one outbound request, logged by its argument; rejects
    with a TypeError when there is no response. *)
Definition fetch (u : JsString) : Async Response :=
  fun w =>
    let w' := {| upstream := upstream w; fetched := fetched w ++ [u] |} in
    match upstream w u with
    | Responds res => (Returns res, w')
    | NetworkFailure => (Throws TypeError, w')
    end.

(** [res.json()]: the body parsed as JSON; rejects with a SyntaxError. *)
Definition json (res : Response) : Async Value :=
  fun w =>
    match Json.parse (body res) with
    | Some v => (Returns v, w)
    | None => (Throws SyntaxError, w)
    end.

(** The engine that runs the handlers.  [JSON.stringify] walks the value
    recursively and builds one string: on a value nested deeper than the
    call stack allows, or with a text longer than a string may be, it
    throws a RangeError.  Which values an engine can serialize, and with
    which [space], is its own matter (the stack it has, the frames it
    uses); the model takes it as given and assumes nothing about it. *)
Record Engine : Type := {
  can_serialize : Value -> option Z -> bool
}.

(** [JSON.stringify(value, null, space)] on a value that came from outside:
    the text, or the RangeError of an engine that cannot serialize it. *)
Definition JSON_stringify (engine : Engine) (v : Value) (space : option Z)
  : Async JsString :=
  fun w =>
    if can_serialize engine v space then (Returns (Json.stringify v space), w)
    else (Throws RangeError, w).

(** An object literal with one property. *)
Definition object1 (k : JsString) (v : Value) : Value :=
  VObject (define_property k v []).

Definition json_headers : HeaderList :=
  [(js "Content-Type", js "application/json")].

(** The template literal of both handlers. *)
Definition fileUrl_of (id : JsString) : JsString :=
  js "https://china-auto-dashboard.pages.dev/api/koubei_summary_"
    ++ id ++ js ".json".

End Runtime.
Export Runtime.

(* ===================================================================== *)
(** * The handlers *)
(* ===================================================================== *)

(** In both handlers the object literals with the error message are
    constants of the source, flat and a few code units long: their text is
    [Json.stringify] of them.  The parsed upstream [data] is whatever the
    upstream sent, and goes through [JSON_stringify], which may throw. *)

(** functions/api/koubei.js *)
Module Strict.

Definition onRequestGet (engine : Engine) (context : EventContext)
  : Async Response :=
  let url := url (request context) in
  let id := URLSearchParams_get (searchParams url) (js "id") in
  if negb (truthy id) then
    ret (new_Response
           (Json.stringify
              (object1 (js "error") (Json.VString (js "missing id"))) None)
           {| init_status := Some 400; init_headers := json_headers |})
  else
    let fileUrl := fileUrl_of (ToString id) in
    let* res := await fetch fileUrl in
    if negb (ok res) then
      ret (new_Response
             (Json.stringify
                (object1 (js "error") (Json.VString (js "file not found")))
                None)
             {| init_status := Some 404; init_headers := json_headers |})
    else
      let* data := await json res in
      let* text := call JSON_stringify engine data None in
      ret (new_Response text
             {| init_status := None; init_headers := json_headers |}).

End Strict.

(** The second version of the function (its file name is not recorded). *)
Module Lenient.

Definition onRequestGet (engine : Engine) (context : EventContext)
  : Async Response :=
  let url := url (request context) in
  let id := or_default (URLSearchParams_get (searchParams url) (js "id"))
              (js "197") in
  let fileUrl := fileUrl_of id in
  let* res := await fetch fileUrl in
  if negb (ok res) then
    ret (new_Response
           (Json.stringify
              (object1 (js "error") (Json.VString (js "File not found")))
              None)
           {| init_status := Some 404; init_headers := json_headers |})
  else
    let* data := await json res in
    let* text := call JSON_stringify engine data (Some 2) in
    ret (new_Response text
           {| init_status := None; init_headers := json_headers |}).

End Lenient.

(** The text of a string literal between double quotes. *)
Definition quoted (s : string) : JsString := dquote :: js s ++ [dquote].

(** The [id] parameter of the request. *)
Definition id_param (context : EventContext) : Nullable JsString :=
  URLSearchParams_get (searchParams (url (request context))) (js "id").

(** The error bodies, as texts. *)
Definition error_body (message : string) : JsString :=
  js "{" ++ quoted "error" ++ js ":" ++ quoted message ++ js "}".

(** The URLs an invocation fetched: those logged after the ones that were
    in the log before. *)
Definition calls (before after : World) : list JsString :=
  skipn (length (fetched before)) (fetched after).

(** The two versions under one name. *)
Inductive Variant : Type := StrictVariant | LenientVariant.

Definition onRequestGet (engine : Engine) (v : Variant)
  : EventContext -> Async Response :=
  match v with
  | StrictVariant => Strict.onRequestGet engine
  | LenientVariant => Lenient.onRequestGet engine
  end.

(** The message of the 404 answer and the [space] argument of the final
    [JSON.stringify], per version. *)
Definition not_found_message (v : Variant) : string :=
  match v with
  | StrictVariant => "file not found"
  | LenientVariant => "File not found"
  end.

Definition space_of (v : Variant) : option Z :=
  match v with
  | StrictVariant => None
  | LenientVariant => Some 2
  end.

(** A JSON answer with the given status and body. *)
Definition json_response (code : Z) (text : JsString) : Response :=
  {| status := code; headers := json_headers; body := text |}.

(** The world after one more fetch. *)
Definition logged (w : World) (u : JsString) : World :=
  {| upstream := upstream w; fetched := fetched w ++ [u] |}.

(** ** Sample requests and worlds *)

Module Sample.

Definition request_with (query : list (JsString * JsString)) : EventContext :=
  {| request := {| method := js "GET";
                   url := {| href := js "https://example.test/api/koubei";
                             searchParams := query |};
                   request_headers := [] |};
     env := [];
     params := [] |}.

(** GET /api/koubei *)
Definition no_id : EventContext := request_with [].
(** GET /api/koubei?id= *)
Definition empty_id : EventContext := request_with [(js "id", [])].
(** GET /api/koubei?id=197 *)
Definition id_197 : EventContext := request_with [(js "id", js "197")].

(** A static host that answers every URL with the given status and body. *)
Definition host (code : Z) (text : JsString) : World :=
  {| upstream := fun _ => Responds {| status := code; headers := [];
                                      body := text |};
     fetched := [] |}.

(** The body {"make":"X","score":4.5} and its value (4.5 is 9 * 2^(-1)). *)
Definition car_body : JsString :=
  js "{" ++ quoted "make" ++ js ":" ++ quoted "X" ++ js ","
    ++ quoted "score" ++ js ":4.5}".



(** A host that cannot be reached. *)
Definition unreachable : World :=
  {| upstream := fun _ => NetworkFailure; fetched := [] |}.

(** An engine with room for every value. *)
Definition roomy : Engine := {| can_serialize := fun _ _ => true |}.

(** An engine whose stack takes values nested up to [limit] deep. *)
Definition stack (limit : nat) : Engine :=
  {| can_serialize := fun v _ => (Json.depth v <=? limit)%nat |}.

(** An empty array inside [n] arrays, as a value and as a text. *)
Fixpoint nested_value (n : nat) : Json.Value :=
  match n with
  | O => Json.VArray []
  | S n' => Json.VArray [nested_value n']
  end.

Fixpoint nested_body (n : nat) : JsString :=
  match n with
  | O => js "[]"
  | S n' => js "[" ++ nested_body n' ++ js "]"
  end.

(** A stack of 100 levels (the engines of today take a few thousand), and
    a body nested one level deeper. *)
Definition deep_limit : nat := 100.
Definition deep_value : Json.Value := nested_value deep_limit.
Definition deep_body : JsString := nested_body deep_limit.

End Sample.

(** The answer for the parsed upstream value, or the RangeError. *)
Definition relayed (engine : Engine) (v : Variant) (data : Json.Value)
  : Completion Response :=
  if can_serialize engine data (space_of v)
  then Returns (json_response 200 (Json.stringify data (space_of v)))
  else Throws RangeError.

(** What the part after the fetch does: both versions, given the response. *)
Definition after_fetch (engine : Engine) (v : Variant) (w : World)
    (u : JsString) : Completion Response * World :=
  match upstream w u with
  | NetworkFailure => (Throws TypeError, logged w u)
  | Responds res =>
      if ok res then
        match Json.parse (body res) with
        | Some data => (relayed engine v data, logged w u)
        | None => (Throws SyntaxError, logged w u)
        end
      else (Returns (json_response 404 (error_body (not_found_message v))),
            logged w u)
  end.



(** Two fetch outcomes that agree on what the handlers read of them: the
    status and the body. *)
Definition same_answer (o1 o2 : FetchOutcome) : Prop :=
  match o1, o2 with
  | NetworkFailure, NetworkFailure => True
  | Responds r1, Responds r2 => status r1 = status r2 /\ body r1 = body r2
  | _, _ => False
  end.

(** ** Predicates of the further properties *)

(** The query of the request, as [searchParams] holds it. *)
Definition query (context : EventContext) : list (JsString * JsString) :=
  searchParams (url (request context)).

(** The pair is not an [id] parameter. *)
Definition not_id (pair : JsString * JsString) : bool :=
  negb (JsStr.eqb (fst pair) (js "id")).

(** Two completions that a caller cannot tell apart but by the layout and
    the error text of the body: the same exception, or answers with the
    same status and headers whose bodies, when the status is 200, are JSON
    texts of one value.  A RangeError on one side only is set apart:
    whether [JSON.stringify] has room depends on the [space] too, so one
    version can throw it where the other answers; that answer is then the
    200. *)
Definition same_outcome (a b : Completion Response) : Prop :=
  match a, b with
  | Returns x, Returns y =>
      status x = status y
      /\ headers x = headers y
      /\ (status x = 200 ->
          exists value, Json.parse (body x) = Some value
                        /\ Json.parse (body y) = Some value)
  | Returns x, Throws RangeError => status x = 200
  | Throws RangeError, Returns y => status y = 200
  | Throws e, Throws e' => e = e'
  | _, _ => False
  end.

(* ===================================================================== *)
(** * Decimal digits: writing a number and reading it back *)
(* ===================================================================== *)

Module DigitFacts.

Import Num.

Lemma is_digit_iff (c : CodeUnit) : is_digit c = true <-> 48 <= c <= 57.
Proof. unfold is_digit. lia. Qed.

Lemma is_digit_char (d : Z) : digit d -> is_digit (digit_char d) = true.
Proof. unfold digit, digit_char. intros H. apply is_digit_iff. lia. Qed.

(** The value of a sequence of digits, from an accumulator on. *)
Lemma digits_value_from (ds : list Z) (a : Z) :
  fold_left (fun acc c => acc * 10 + (c - 48)) (map digit_char ds) a
  = fold_left (fun acc d => acc * 10 + d) ds a.
Proof.
  revert a. induction ds as [|d ds IH]; intros a; simpl; [reflexivity|].
  rewrite IH. unfold digit_char. f_equal. lia.
Qed.

Lemma digits_aux_value (fuel : nat) :
  forall n acc, 0 <= n < 10 * 2 ^ Z.of_nat fuel ->
  fold_left (fun a d => a * 10 + d) (digits_aux fuel n acc) 0
  = fold_left (fun a d => a * 10 + d) acc n.
Proof.
  induction fuel as [|f IH]; intros n acc Hn.
  - cbn [digits_aux fold_left]. f_equal; lia.
  - cbn [digits_aux]. destruct (n <? 10) eqn:E.
    + cbn [fold_left]. f_equal; lia.
    + apply Z.ltb_ge in E. rewrite IH.
      * cbn [fold_left]. f_equal; pose proof (Z.div_mod n 10); lia.
      * rewrite Nat2Z.inj_succ, Z.pow_succ_r in Hn by lia.
        split; [apply Z.div_pos; lia|].
        apply Z.div_lt_upper_bound; lia.
Qed.

Lemma digits_aux_digits (fuel : nat) :
  forall n acc, 0 <= n < 10 * 2 ^ Z.of_nat fuel ->
  Forall digit acc -> Forall digit (digits_aux fuel n acc).
Proof.
  induction fuel as [|f IH]; intros n acc Hn Hacc.
  - simpl in *. constructor; [unfold digit; lia|assumption].
  - cbn [digits_aux]. destruct (n <? 10) eqn:E.
    + apply Z.ltb_lt in E. constructor; [unfold digit; lia|assumption].
    + apply Z.ltb_ge in E. apply IH.
      * rewrite Nat2Z.inj_succ, Z.pow_succ_r in Hn by lia.
        split; [apply Z.div_pos; lia|].
        apply Z.div_lt_upper_bound; lia.
      * constructor; [|assumption].
        unfold digit. pose proof (Z.mod_pos_bound n 10). lia.
Qed.

Lemma digits_aux_head (fuel : nat) :
  forall n acc, 0 < n ->
  exists d l, digits_aux fuel n acc = d :: l /\ 0 < d.
Proof.
  induction fuel as [|f IH]; intros n acc Hn.
  - simpl. eauto.
  - cbn [digits_aux]. destruct (n <? 10) eqn:E; [eauto|].
    apply Z.ltb_ge in E. apply IH.
    apply Z.div_str_pos. lia.
Qed.

Lemma digits_range (n : Z) :
  0 <= n -> 0 <= n < 10 * 2 ^ Z.of_nat (Z.to_nat (Z.log2 n)).
Proof.
  intros Hn. split; [assumption|].
  rewrite Z2Nat.id by apply Z.log2_nonneg.
  destruct (Z.eq_dec n 0) as [->|Hz]; [simpl; lia|].
  pose proof (Z.log2_spec n ltac:(lia)) as [_ Hu].
  rewrite Z.pow_succ_r in Hu by apply Z.log2_nonneg. lia.
Qed.

Lemma digits_value_digit_chars (n : Z) :
  0 <= n -> digits_value (digit_chars n) = n.
Proof.
  intros Hn. unfold digits_value, digit_chars, digits.
  rewrite digits_value_from, digits_aux_value; [reflexivity|].
  now apply digits_range.
Qed.

Lemma digit_chars_digits (n : Z) :
  0 <= n -> forallb is_digit (digit_chars n) = true.
Proof.
  intros Hn. unfold digit_chars, digits.
  pose proof (digits_aux_digits _ n [] (digits_range n Hn) (Forall_nil _)) as H.
  induction H as [|d l Hd _ IH]; simpl; [reflexivity|].
  now rewrite is_digit_char, IH.
Qed.

Lemma digit_chars_head (n : Z) :
  0 < n -> exists c l, digit_chars n = c :: l /\ 48 < c.
Proof.
  intros Hn. unfold digit_chars, digits.
  destruct (digits_aux_head (Z.to_nat (Z.log2 n)) n [] Hn)
    as (d & l & -> & Hd).
  exists (digit_char d), (map digit_char l). split; [reflexivity|].
  unfold digit_char. lia.
Qed.

Lemma digit_chars_nonempty (n : Z) : digit_chars n <> [].
Proof.
  unfold digit_chars, digits.
  destruct (Z.to_nat (Z.log2 n)); simpl; [discriminate|].
  destruct (n <? 10); [discriminate|].
  intros H. apply map_eq_nil in H. revert H.
  generalize (n / 10) (n mod 10). intros a b.
  assert (G : forall f x acc, acc <> [] -> digits_aux f x acc <> []).
  { induction f as [|f IH]; intros x acc Hacc; simpl; [discriminate|].
    destruct (x <? 10); [discriminate|]. apply IH. discriminate. }
  apply G. discriminate.
Qed.

(** ** Values of digit sequences *)

Lemma digits_value_fold (ds : JsString) (a : Z) :
  fold_left (fun acc c => acc * 10 + (c - 48)) ds a
  = a * 10 ^ Z.of_nat (length ds) + digits_value ds.
Proof.
  unfold digits_value. revert a.
  induction ds as [|c ds IH]; intros a.
  - simpl. lia.
  - cbn [fold_left length]. rewrite IH, (IH (0 * 10 + (c - 48))).
    rewrite Nat2Z.inj_succ, Z.pow_succ_r by lia. ring.
Qed.

Lemma digits_value_app (l1 l2 : JsString) :
  digits_value (l1 ++ l2)
  = digits_value l1 * 10 ^ Z.of_nat (length l2) + digits_value l2.
Proof.
  unfold digits_value at 1. rewrite fold_left_app, digits_value_fold.
  reflexivity.
Qed.

Lemma digits_value_zeros (n : Z) : digits_value (zeros n) = 0.
Proof.
  unfold zeros. induction (Z.to_nat n) as [|k IH]; [reflexivity|].
  change (repeat (ch "0") (S k)) with ([ch "0"] ++ repeat (ch "0") k).
  rewrite digits_value_app, IH. reflexivity.
Qed.

Lemma zeros_length (n : Z) : 0 <= n -> Z.of_nat (length (zeros n)) = n.
Proof. intros H. unfold zeros. rewrite repeat_length. lia. Qed.

Lemma zeros_digits (n : Z) : forallb is_digit (zeros n) = true.
Proof.
  unfold zeros. induction (Z.to_nat n) as [|k IH]; [reflexivity|].
  simpl. exact IH.
Qed.

Lemma digits_value_nonneg (ds : JsString) :
  forallb is_digit ds = true -> 0 <= digits_value ds.
Proof.
  induction ds as [|c ds IH] using rev_ind; intros H;
    [unfold digits_value; simpl; lia|].
  rewrite forallb_app in H. apply andb_true_iff in H as [H1 H2].
  simpl in H2. rewrite andb_true_r in H2. apply is_digit_iff in H2.
  rewrite digits_value_app. specialize (IH H1).
  change (digits_value [c]) with (0 * 10 + (c - 48)).
  change (Z.of_nat (length [c])) with 1. rewrite Z.pow_1_r. lia.
Qed.

(** ** Reading a run of digits *)

Lemma span_digits_app (ds rest : JsString) :
  forallb is_digit ds = true -> no_digit_ahead rest ->
  span_digits (ds ++ rest) = (ds, rest).
Proof.
  intros Hds Hrest. induction ds as [|c ds IH].
  - simpl. destruct rest as [|c r]; [reflexivity|].
    simpl in *. now rewrite Hrest.
  - simpl in *. apply andb_true_iff in Hds as [Hc Hds].
    rewrite Hc, (IH Hds). reflexivity.
Qed.

Lemma span_digits_all (s : JsString) :
  forallb is_digit (fst (span_digits s)) = true.
Proof.
  induction s as [|c s IH]; [reflexivity|].
  simpl. destruct (is_digit c) eqn:E; [|reflexivity].
  destruct (span_digits s) as [ds rest]. simpl in *. now rewrite E.
Qed.

Lemma span_digits_split (s : JsString) :
  s = fst (span_digits s) ++ snd (span_digits s).
Proof.
  induction s as [|c s IH]; [reflexivity|].
  simpl. destruct (is_digit c); [|reflexivity].
  destruct (span_digits s) as [ds rest]. simpl in *. now f_equal.
Qed.

End DigitFacts.

(* ===================================================================== *)
(** * Number literals: the layouts of Number::toString read back *)
(* ===================================================================== *)

Module LayoutFacts.

Import Num DigitFacts.

Lemma number_end_no_digit (rest : JsString) :
  number_end rest -> no_digit_ahead rest.
Proof. destruct rest as [|c r]; simpl; [auto|tauto]. Qed.

Lemma lex_unsigned_parts (neg : bool) (text ip r1 fp r2 : JsString)
    (x : Z) (r3 : JsString) :
  span_digits text = (ip, r1) ->
  int_part_ok ip = true ->
  lex_fraction r1 = Some (fp, r2) ->
  lex_exponent r2 = Some (x, r3) ->
  lex_unsigned neg text
  = Some (decimal_to_number neg (digits_value (ip ++ fp))
            (x - Z.of_nat (length fp)), r3).
Proof.
  intros Hs Hi Hf He. unfold lex_unsigned.
  rewrite Hs. cbn [fst snd]. rewrite Hi, Hf, He. reflexivity.
Qed.

Lemma lex_fraction_none (rest : JsString) :
  number_end rest -> lex_fraction rest = Some ([], rest).
Proof.
  destruct rest as [|c r]; [reflexivity|].
  intros (_ & Hdot & _). unfold lex_fraction.
  destruct (c =? ch ".") eqn:E; [|reflexivity].
  apply Z.eqb_eq in E. contradiction.
Qed.

Lemma lex_fraction_some (fp rest : JsString) :
  forallb is_digit fp = true -> fp <> [] -> no_digit_ahead rest ->
  lex_fraction (ch "." :: fp ++ rest) = Some (fp, rest).
Proof.
  intros Hd Hne Hrest. unfold lex_fraction.
  rewrite Z.eqb_refl, (span_digits_app fp rest Hd Hrest). cbn [fst snd].
  destruct fp; [contradiction|reflexivity].
Qed.

Lemma lex_exponent_none (rest : JsString) :
  number_end rest -> lex_exponent rest = Some (0, rest).
Proof.
  destruct rest as [|c r]; [reflexivity|].
  intros (_ & _ & He & HE). unfold lex_exponent.
  destruct (c =? ch "e") eqn:E1; [apply Z.eqb_eq in E1; contradiction|].
  destruct (c =? ch "E") eqn:E2; [apply Z.eqb_eq in E2; contradiction|].
  reflexivity.
Qed.

Lemma lex_exponent_some (x : Z) (rest : JsString) :
  no_digit_ahead rest ->
  lex_exponent (exponent_part x ++ rest) = Some (x, rest).
Proof.
  intros Hrest. unfold exponent_part, lex_exponent.
  cbn [app]. rewrite Z.eqb_refl. cbn [orb].
  assert (Hsp : span_digits (digit_chars (Z.abs x) ++ rest)
                = (digit_chars (Z.abs x), rest)).
  { apply span_digits_app; [apply digit_chars_digits; lia|assumption]. }
  assert (Hv := digits_value_digit_chars (Z.abs x) ltac:(lia)).
  destruct (x <? 0) eqn:E.
  - rewrite Z.eqb_refl. cbn [fst snd]. rewrite Hsp. cbn [fst snd].
    destruct (digit_chars (Z.abs x)) eqn:Ed;
      [now apply digit_chars_nonempty in Ed|].
    rewrite Hv. apply Z.ltb_lt in E. do 2 f_equal. lia.
  - change (ch "+" =? ch "-") with false. rewrite Z.eqb_refl.
    cbn [fst snd]. rewrite Hsp. cbn [fst snd].
    destruct (digit_chars (Z.abs x)) eqn:Ed;
      [now apply digit_chars_nonempty in Ed|].
    rewrite Hv. apply Z.ltb_ge in E. do 2 f_equal. lia.
Qed.

(** The integer part is well formed when it starts with a digit other
    than 0. *)
Lemma int_part_ok_head (c : CodeUnit) (l : JsString) :
  48 < c -> int_part_ok (c :: l) = true.
Proof.
  intros H. unfold int_part_ok. destruct l; [reflexivity|].
  change (ch "0") with 48. destruct (c =? 48) eqn:E; [|reflexivity].
  apply Z.eqb_eq in E. lia.
Qed.

Lemma decimal_shift (neg : bool) (s j : Z) :
  0 <= j ->
  decimal_to_number neg (s * 10 ^ j) 0 = decimal_to_number neg s j.
Proof.
  intros Hj. unfold decimal_to_number, frac_of.
  change (0 <=? 0) with true.
  destruct (0 <=? j) eqn:E; [|apply Z.leb_gt in E; lia].
  cbn [fst snd]. rewrite Z.pow_0_r, Z.mul_1_r. reflexivity.
Qed.

(** Reading back a layout: the digits [s] laid out for the exponent [n]
    are the decimal [s * 10^(n - k)], [k] the number of digits. *)
Lemma lex_layout (neg : bool) (s n : Z) (rest : JsString) :
  0 < s -> number_end rest ->
  lex_unsigned neg (layout (digit_chars s) n ++ rest)
  = Some (decimal_to_number neg s (n - Z.of_nat (length (digit_chars s))),
          rest).
Proof.
  intros Hs Hend.
  assert (Hall := digit_chars_digits s ltac:(lia)).
  assert (Hval := digits_value_digit_chars s ltac:(lia)).
  destruct (digit_chars_head s Hs) as (c0 & l0 & Hds & Hc0).
  assert (Hnd := number_end_no_digit rest Hend).
  set (ds := digit_chars s) in *.
  set (k := Z.of_nat (length ds)).
  assert (Hk : 1 <= k) by (unfold k; rewrite Hds; simpl length; lia).
  unfold layout. fold k.
  destruct ((k <=? n) && (n <=? 21)) eqn:EA.
  { (* digits followed by zeros *)
    apply andb_true_iff in EA as [EA1 EA2].
    apply Z.leb_le in EA1. apply Z.leb_le in EA2.
    rewrite (lex_unsigned_parts neg _ (ds ++ zeros (n - k)) rest [] rest
               0 rest).
    - rewrite app_nil_r, digits_value_app, digits_value_zeros, Hval.
      rewrite zeros_length by lia. cbn [length]. rewrite Z.add_0_r.
      change (0 - Z.of_nat 0) with 0. f_equal. f_equal.
      apply decimal_shift. lia.
    - apply span_digits_app; [|assumption].
      rewrite forallb_app, Hall, zeros_digits. reflexivity.
    - rewrite Hds. cbn [app]. now apply int_part_ok_head.
    - now apply lex_fraction_none.
    - now apply lex_exponent_none. }
  destruct ((0 <? n) && (n <=? 21)) eqn:EB.
  { (* a dot inside the digits *)
    apply andb_true_iff in EB as [EB1 EB2].
    apply Z.ltb_lt in EB1. apply Z.leb_le in EB2.
    assert (Hnk : n < k).
    { apply andb_false_iff in EA as [EA|EA];
        [apply Z.leb_gt in EA|apply Z.leb_gt in EA]; lia. }
    rewrite <- (firstn_skipn (Z.to_nat n) ds) in Hall, Hval.
    rewrite forallb_app in Hall. apply andb_true_iff in Hall as [Hf Hsk].
    assert (Hlen : Z.of_nat (length (skipn (Z.to_nat n) ds)) = k - n).
    { rewrite length_skipn. unfold k. lia. }
    rewrite <- app_assoc. cbn [app].
    rewrite (lex_unsigned_parts neg _ (firstn (Z.to_nat n) ds)
               (ch "." :: skipn (Z.to_nat n) ds ++ rest)
               (skipn (Z.to_nat n) ds) rest 0 rest).
    - rewrite Hval, Hlen. do 3 f_equal. lia.
    - apply span_digits_app; [assumption|reflexivity].
    - rewrite Hds. destruct (Z.to_nat n) as [|n'] eqn:En; [lia|].
      cbn [firstn]. now apply int_part_ok_head.
    - apply lex_fraction_some; [assumption| |assumption].
      intros Hnil. rewrite Hnil in Hlen. simpl in Hlen. lia.
    - now apply lex_exponent_none. }
  destruct ((-6 <? n) && (n <=? 0)) eqn:EC.
  { (* zero, dot, zeros and the digits *)
    apply andb_true_iff in EC as [EC1 EC2].
    apply Z.ltb_lt in EC1. apply Z.leb_le in EC2.
    cbn [app]. rewrite <- app_assoc.
    rewrite (lex_unsigned_parts neg _ [ch "0"]
               (ch "." :: zeros (- n) ++ ds ++ rest)
               (zeros (- n) ++ ds) rest 0 rest).
    - cbn [app].
      change (ch "0" :: zeros (- n) ++ ds)
        with ([ch "0"] ++ zeros (- n) ++ ds).
      rewrite !digits_value_app, digits_value_zeros, Hval.
      rewrite length_app, Nat2Z.inj_add, zeros_length by lia.
      change (digits_value [ch "0"]) with 0. fold k.
      rewrite !Z.mul_0_l, !Z.add_0_l. do 3 f_equal. lia.
    - apply (span_digits_app [ch "0"]); reflexivity.
    - reflexivity.
    - rewrite app_assoc. apply lex_fraction_some; [| |assumption].
      + rewrite forallb_app, zeros_digits, Hall. reflexivity.
      + rewrite Hds. destruct (zeros (- n)); discriminate.
    - now apply lex_exponent_none. }
  destruct (k =? 1) eqn:ED.
  { (* one digit and an exponent *)
    apply Z.eqb_eq in ED. rewrite <- app_assoc.
    rewrite (lex_unsigned_parts neg _ ds (exponent_part (n - 1) ++ rest)
               [] (exponent_part (n - 1) ++ rest) (n - 1) rest).
    - rewrite app_nil_r, Hval. cbn [length]. do 3 f_equal. fold k. lia.
    - apply span_digits_app; [assumption|reflexivity].
    - rewrite Hds. now apply int_part_ok_head.
    - reflexivity.
    - apply lex_exponent_some. assumption. }
  (* one digit, a dot, the other digits and an exponent *)
  apply Z.eqb_neq in ED.
  rewrite <- (firstn_skipn 1 ds) in Hall, Hval.
  rewrite forallb_app in Hall. apply andb_true_iff in Hall as [Hf Hsk].
  assert (Hlen : Z.of_nat (length (skipn 1 ds)) = k - 1).
  { rewrite length_skipn. unfold k. lia. }
  rewrite <- app_assoc. cbn [app]. rewrite <- app_assoc.
  rewrite (lex_unsigned_parts neg _ (firstn 1 ds)
             (ch "." :: skipn 1 ds ++ exponent_part (n - 1) ++ rest)
             (skipn 1 ds) (exponent_part (n - 1) ++ rest) (n - 1) rest).
  - rewrite Hval, Hlen. do 3 f_equal. lia.
  - apply span_digits_app; [assumption|reflexivity].
  - rewrite Hds. cbn [firstn]. reflexivity.
  - apply lex_fraction_some; [assumption| |reflexivity].
    intros Hnil. rewrite Hnil in Hlen. simpl in Hlen. lia.
  - apply lex_exponent_some. assumption.
Qed.

End LayoutFacts.

(* ===================================================================== *)
(** * Rounding to binary64 *)
(* ===================================================================== *)

Module RoundFacts.

Import Num.

Lemma pow2_pos (n : Z) : 0 <= n -> 0 < 2 ^ n.
Proof. intros H. apply Z.pow_pos_nonneg; lia. Qed.

Lemma pow2_max_pos (t : Z) : 0 < 2 ^ Z.max 0 t.
Proof. apply pow2_pos. lia. Qed.

(** [below] at a common scale [2^K]. *)
Lemma below_scaled (a b t K : Z) :
  0 <= K -> 0 <= K + t ->
  below a b t <-> a * 2 ^ K < b * 2 ^ (K + t).
Proof.
  intros HK HKt. unfold below.
  destruct (Z.le_gt_cases 0 t) as [Ht|Ht].
  - rewrite (Z.max_l 0 (- t)), (Z.max_r 0 t) by lia.
    rewrite Z.pow_0_r, Z.mul_1_r, Z.pow_add_r by lia.
    pose proof (pow2_pos K HK). pose proof (pow2_pos t Ht).
    split; intros H1; nia.
  - rewrite (Z.max_r 0 (- t)), (Z.max_l 0 t) by lia.
    rewrite Z.pow_0_r, Z.mul_1_r.
    replace K with ((K + t) + (- t)) at 1 by lia.
    rewrite Z.pow_add_r by lia.
    pose proof (pow2_pos (K + t) HKt). pose proof (pow2_pos (- t) ltac:(lia)).
    split; intros H1; nia.
Qed.

Lemma below_mono (a b t t' : Z) :
  0 < b -> t <= t' -> below a b t -> below a b t'.
Proof.
  intros Hb Hle H.
  set (K := Z.abs t + Z.abs t').
  apply (below_scaled a b t K) in H; try (unfold K; lia).
  apply (below_scaled a b t' K); try (unfold K; lia).
  eapply Z.lt_le_trans; [exact H|].
  apply Z.mul_le_mono_nonneg_l; [lia|].
  apply Z.pow_le_mono_r; unfold K; lia.
Qed.

Lemma log_unique (a b t t' : Z) :
  0 < b ->
  ~ below a b t -> below a b (t + 1) ->
  ~ below a b t' -> below a b (t' + 1) ->
  t = t'.
Proof.
  intros Hb H1 H2 H1' H2'.
  destruct (Z.lt_trichotomy t t') as [Hlt|[Heq|Hgt]]; [|assumption|].
  - exfalso. apply H1'.
    apply (below_mono a b (t + 1)); [assumption|lia|assumption].
  - exfalso. apply H1.
    apply (below_mono a b (t' + 1)); [assumption|lia|assumption].
Qed.

Lemma ilog2_frac_spec (a b : Z) :
  0 < a -> 0 < b ->
  ~ below a b (ilog2_frac a b) /\ below a b (ilog2_frac a b + 1).
Proof.
  intros Ha Hb.
  pose proof (Z.log2_spec a Ha) as [Ha1 Ha2].
  pose proof (Z.log2_spec b Hb) as [Hb1 Hb2].
  pose proof (Z.log2_nonneg a) as Hla. pose proof (Z.log2_nonneg b) as Hlb.
  set (la := Z.log2 a) in *. set (lb := Z.log2 b) in *.
  rewrite Z.pow_succ_r in Ha2, Hb2 by assumption.
  pose proof (pow2_pos la Hla) as Pa. pose proof (pow2_pos lb Hlb) as Pb.
  assert (Hup : below a b (la - lb + 1)).
  { apply (below_scaled a b _ lb); [lia|lia|].
    replace (lb + (la - lb + 1)) with (Z.succ la) by lia.
    rewrite Z.pow_succ_r by assumption. nia. }
  assert (Hlow : ~ below a b (la - lb - 1)).
  { intros H. apply (below_scaled a b _ (lb + 1)) in H; [|lia|lia].
    replace (lb + 1 + (la - lb - 1)) with la in H by lia.
    replace (lb + 1) with (Z.succ lb) in H by lia.
    rewrite Z.pow_succ_r in H by assumption. nia. }
  unfold ilog2_frac. fold la lb.
  destruct (a * 2 ^ Z.max 0 (- (la - lb)) <? b * 2 ^ Z.max 0 (la - lb)) eqn:E.
  - apply Z.ltb_lt in E. split; [assumption|].
    replace (la - lb - 1 + 1) with (la - lb) by lia. exact E.
  - apply Z.ltb_ge in E. split; [|assumption].
    unfold below. lia.
Qed.

Lemma represents_pos (a b m e : Z) :
  0 < b -> 0 < m -> represents a b m e -> 0 < a.
Proof.
  unfold represents. intros Hb Hm H.
  pose proof (pow2_max_pos (- e)). pose proof (pow2_max_pos e). nia.
Qed.

Lemma log2_exact (a b m e : Z) :
  0 < b -> 0 < m -> represents a b m e ->
  ilog2_frac a b = Z.log2 m + e.
Proof.
  intros Hb Hm Hrep.
  pose proof (represents_pos a b m e Hb Hm Hrep) as Ha.
  destruct (ilog2_frac_spec a b Ha Hb) as [H1 H2].
  pose proof (Z.log2_spec m Hm) as [Hm1 Hm2].
  pose proof (Z.log2_nonneg m) as HL.
  set (L := Z.log2 m) in *.
  rewrite Z.pow_succ_r in Hm2 by assumption.
  pose proof (pow2_pos L HL) as PL.
  pose proof (pow2_max_pos e) as PM.
  unfold represents in Hrep.
  assert (HK : Z.max 0 (- e) + e = Z.max 0 e) by lia.
  apply (log_unique a b); try assumption.
  - intros H. apply (below_scaled a b _ (Z.max 0 (- e))) in H; [|lia|lia].
    replace (Z.max 0 (- e) + (L + e)) with (Z.max 0 e + L) in H by lia.
    rewrite Z.pow_add_r, Hrep in H by lia. nia.
  - apply (below_scaled a b _ (Z.max 0 (- e))); [lia|lia|].
    replace (Z.max 0 (- e) + (L + e + 1)) with (Z.max 0 e + Z.succ L) by lia.
    rewrite Z.pow_add_r, Z.pow_succ_r, Hrep by lia. nia.
Qed.

Lemma canonical_iff (neg : bool) (m e : Z) :
  canonicalb (Finite neg m e) = true <->
  0 <= m < 2 ^ 53 /\ emin <= e <= emax /\ (2 ^ 52 <= m \/ e = emin).
Proof.
  unfold canonicalb.
  rewrite !andb_true_iff, orb_true_iff, !Z.leb_le, Z.ltb_lt, Z.eqb_eq.
  tauto.
Qed.

(** A fraction that is a binary64 value rounds to that value. *)
Lemma round_exact (neg : bool) (a b m e : Z) :
  0 < b -> 0 < m -> canonicalb (Finite neg m e) = true ->
  represents a b m e ->
  round_frac neg a b = Finite neg m e.
Proof.
  intros Hb Hm Hcan Hrep.
  apply canonical_iff in Hcan as (Hm53 & He & Hnorm).
  pose proof (represents_pos a b m e Hb Hm Hrep) as Ha.
  pose proof (log2_exact a b m e Hb Hm Hrep) as Hlog.
  unfold round_frac. rewrite Hlog.
  destruct (a =? 0) eqn:Ea; [apply Z.eqb_eq in Ea; lia|].
  assert (Hexp : Z.max (Z.log2 m + e - 52) emin = e).
  { destruct Hnorm as [Hn|Hn].
    - assert (Z.log2 m = 52); [|lia].
      apply Z.log2_unique; [lia|]. change (Z.succ 52) with 53. lia.
    - assert (Z.log2 m < 53); [|lia].
      apply Z.log2_lt_pow2; lia. }
  rewrite Hexp. unfold represents in Hrep. rewrite Hrep.
  pose proof (pow2_max_pos e) as PM.
  set (den := b * 2 ^ Z.max 0 e) in *.
  assert (Hden : 0 < den) by (unfold den; nia).
  rewrite Z.div_mul, Z.mod_mul by lia.
  replace (den <? 2 * 0) with false by (symmetry; apply Z.ltb_ge; lia).
  replace (den =? 2 * 0) with false by (symmetry; apply Z.eqb_neq; lia).
  cbn [orb andb].
  replace (m =? 2 ^ 53) with false by (symmetry; apply Z.eqb_neq; lia).
  replace (emax <? e) with false by (symmetry; apply Z.ltb_ge; lia).
  reflexivity.
Qed.

Lemma round_frac_sign (neg : bool) (a b : Z) :
  round_frac neg a b = with_sign neg (round_frac false a b).
Proof.
  unfold round_frac.
  destruct (a =? 0); [reflexivity|].
  match goal with |- context [emax <? ?x] => destruct (emax <? x) end;
    reflexivity.
Qed.

(** Every result of the rounding is in canonical form. *)
Lemma round_frac_canonical (neg : bool) (a b : Z) :
  0 <= a -> 0 < b -> canonicalb (round_frac neg a b) = true.
Proof.
  intros Ha Hb. unfold round_frac.
  destruct (a =? 0) eqn:Ea; [reflexivity|].
  apply Z.eqb_neq in Ea. assert (Ha' : 0 < a) by lia.
  destruct (ilog2_frac_spec a b Ha' Hb) as [H1 H2].
  set (t := ilog2_frac a b) in *.
  set (e := Z.max (t - 52) emin).
  set (num := a * 2 ^ Z.max 0 (- e)).
  set (den := b * 2 ^ Z.max 0 e).
  pose proof (pow2_max_pos e) as PM. pose proof (pow2_max_pos (- e)) as PM'.
  assert (Hden : 0 < den) by (unfold den; nia).
  assert (Hnum : 0 < num) by (unfold num; nia).
  assert (HK : Z.max 0 (- e) + e = Z.max 0 e) by lia.
  (* the quotient is below 2^53 *)
  assert (Hup : num < den * 2 ^ 53).
  { assert (H : below a b (e + 53)).
    { apply (below_mono a b (t + 1)); [assumption|unfold e; lia|assumption]. }
    apply (below_scaled a b _ (Z.max 0 (- e))) in H; [|lia|unfold e, emin; lia].
    replace (Z.max 0 (- e) + (e + 53)) with (Z.max 0 e + 53) in H by lia.
    rewrite Z.pow_add_r in H by lia. unfold num, den. lia. }
  (* and, unless the exponent was raised to emin, at least 2^52 *)
  assert (Hlow : e = t - 52 -> den * 2 ^ 52 <= num).
  { intros He. apply Z.nlt_ge. intros H. apply H1.
    apply (below_scaled a b _ (Z.max 0 (- e))); [lia|lia|].
    replace (Z.max 0 (- e) + t) with (Z.max 0 e + 52) by lia.
    rewrite Z.pow_add_r by lia. unfold num, den in H. lia. }
  assert (Hsub : e <> t - 52 -> num < den * 2 ^ 52).
  { intros He.
    assert (H : below a b (e + 52)).
    { apply (below_mono a b (t + 1));
        [assumption|unfold e in *; lia|assumption]. }
    apply (below_scaled a b _ (Z.max 0 (- e))) in H; [|lia|unfold e, emin; lia].
    replace (Z.max 0 (- e) + (e + 52)) with (Z.max 0 e + 52) in H by lia.
    rewrite Z.pow_add_r in H by lia. unfold num, den. lia. }
  assert (Hq0 : 0 <= num / den) by (apply Z.div_pos; lia).
  assert (Hq53 : num / den < 2 ^ 53)
    by (apply Z.div_lt_upper_bound; lia).
  assert (Hq52 : e = t - 52 -> 2 ^ 52 <= num / den)
    by (intros He; apply Z.div_le_lower_bound; [lia|];
        specialize (Hlow He); lia).
  assert (Hqs : e <> t - 52 -> num / den < 2 ^ 52)
    by (intros He; apply Z.div_lt_upper_bound; [lia|];
        specialize (Hsub He); lia).
  assert (Hemin : e <> t - 52 -> e = emin) by (unfold e; lia).
  assert (Hege : emin <= e) by (unfold e; lia).
  set (q := num / den) in *.
  set (q' := if (den <? 2 * (num mod den))
                || ((den =? 2 * (num mod den)) && Z.odd q)
             then q + 1 else q).
  assert (Hq' : q <= q' <= q + 1) by (unfold q'; destruct (_ || _); lia).
  destruct (emax <? (if q' =? 2 ^ 53 then e + 1 else e)) eqn:Emax;
    [reflexivity|].
  apply Z.ltb_ge in Emax. apply canonical_iff.
  destruct (q' =? 2 ^ 53) eqn:E53.
  - apply Z.eqb_eq in E53.
    assert (e = t - 52).
    { destruct (Z.eq_dec e (t - 52)); [assumption|].
      specialize (Hqs n). lia. }
    lia.
  - apply Z.eqb_neq in E53.
    destruct (Z.eq_dec e (t - 52)) as [He|He].
    + specialize (Hq52 He). lia.
    + specialize (Hqs He). specialize (Hemin He). lia.
Qed.

Lemma frac_of_denominator (s d : Z) : 0 < snd (frac_of s d).
Proof.
  unfold frac_of. destruct (0 <=? d) eqn:E; cbn [snd]; [lia|].
  apply Z.leb_gt in E. apply Z.pow_pos_nonneg; lia.
Qed.

Lemma frac_of_numerator (s d : Z) : 0 <= s -> 0 <= fst (frac_of s d).
Proof.
  intros Hs. unfold frac_of. destruct (0 <=? d) eqn:E; cbn [fst]; [|lia].
  apply Z.leb_le in E. apply Z.mul_nonneg_nonneg; [lia|].
  apply Z.pow_nonneg. lia.
Qed.

Lemma decimal_to_number_canonical (neg : bool) (s d : Z) :
  0 <= s -> canonicalb (decimal_to_number neg s d) = true.
Proof.
  intros Hs. apply round_frac_canonical;
    [now apply frac_of_numerator|apply frac_of_denominator].
Qed.

Lemma decimal_to_number_sign (neg : bool) (s d : Z) :
  decimal_to_number neg s d = with_sign neg (decimal_to_number false s d).
Proof. apply round_frac_sign. Qed.

Lemma decimal_zero (neg : bool) (d : Z) :
  decimal_to_number neg 0 d = Finite neg 0 emin.
Proof.
  unfold decimal_to_number, frac_of.
  destruct (0 <=? d); cbn [fst snd]; reflexivity.
Qed.

Lemma number_eqb_eq (x y : Number) : eqb x y = true -> x = y.
Proof.
  destruct x as [n1 m1 e1|n1], y as [n2 m2 e2|n2]; simpl; try discriminate.
  - rewrite !andb_true_iff, !Z.eqb_eq. intros [[Hn ->] ->].
    apply Bool.eqb_prop in Hn. now subst.
  - intros Hn. apply Bool.eqb_prop in Hn. now subst.
Qed.

End RoundFacts.

(* ===================================================================== *)
(** * Number::toString and back *)
(* ===================================================================== *)

Module NumberFacts.

Import Num DigitFacts LayoutFacts RoundFacts.

Lemma frac_of_binary_pos (m e : Z) :
  0 < m -> 0 < fst (frac_of_binary m e) /\ 0 < snd (frac_of_binary m e).
Proof.
  intros Hm. unfold frac_of_binary.
  destruct (0 <=? e) eqn:E; cbn [fst snd].
  - apply Z.leb_le in E. pose proof (pow2_pos e E). split; nia.
  - apply Z.leb_gt in E. pose proof (pow2_pos (- e) ltac:(lia)). lia.
Qed.

Lemma scaled_floor_nonneg (a b d : Z) :
  0 < a -> 0 < b -> 0 <= scaled_floor a b d.
Proof.
  intros Ha Hb. unfold scaled_floor.
  destruct (0 <=? d) eqn:E.
  - apply Z.leb_le in E. apply Z.div_pos; [lia|].
    pose proof (Z.pow_pos_nonneg 10 d ltac:(lia) E). nia.
  - apply Z.leb_gt in E. apply Z.div_pos; [|lia].
    pose proof (Z.pow_pos_nonneg 10 (- d) ltac:(lia) ltac:(lia)). nia.
Qed.

(** A decimal that converts to a positive value is positive itself. *)
Lemma converts_positive (m e s d : Z) :
  0 < m -> 0 <= s -> converts_to m e s d = true ->
  0 < s /\ decimal_to_number false s d = Finite false m e.
Proof.
  intros Hm Hs H. unfold converts_to in H. apply number_eqb_eq in H.
  split; [|assumption].
  destruct (Z.eq_dec s 0) as [->|]; [|lia].
  rewrite decimal_zero in H. injection H as H _. lia.
Qed.

Lemma candidate_sound (m e n k s d : Z) :
  0 < m -> candidate m e n k = Some (s, d) ->
  0 < s /\ decimal_to_number false s d = Finite false m e.
Proof.
  intros Hm. unfold candidate.
  destruct (frac_of_binary_pos m e Hm) as [Ha Hb].
  set (a := fst (frac_of_binary m e)) in *.
  set (b := snd (frac_of_binary m e)) in *.
  pose proof (scaled_floor_nonneg a b (n - k) Ha Hb) as Hlo.
  set (lo := scaled_floor a b (n - k)) in *.
  set (hi := if lo + 1 =? 10 ^ k then (1, n) else (lo + 1, n - k)).
  assert (Hhi : 0 <= fst hi) by (unfold hi; destruct (_ =? _); simpl; lia).
  destruct (converts_to m e lo (n - k)) eqn:Elo;
    destruct (converts_to m e (fst hi) (snd hi)) eqn:Ehi; cbn [andb].
  - destruct (nearer_low a b lo (n - k)); intros H.
    + injection H as <- <-. now apply converts_positive.
    + rewrite (surjective_pairing hi) in H. injection H as <- <-.
      now apply converts_positive.
  - intros H; injection H as <- <-. now apply converts_positive.
  - intros H. rewrite (surjective_pairing hi) in H. injection H as <- <-.
    now apply converts_positive.
  - discriminate.
Qed.

Lemma shortest_from_sound (fuel : nat) (m e n : Z) :
  0 < m -> forall k s d,
  shortest_from fuel m e n k = Some (s, d) ->
  0 < s /\ decimal_to_number false s d = Finite false m e.
Proof.
  intros Hm. induction fuel as [|f IH]; intros k s d; simpl; [discriminate|].
  destruct (candidate m e n k) as [[s' d']|] eqn:E.
  - intros H; injection H as <- <-. now apply (candidate_sound m e n k).
  - apply IH.
Qed.

Lemma pow10_split (k : Z) : 0 <= k -> 10 ^ k = 2 ^ k * 5 ^ k.
Proof. intros H. change 10 with (2 * 5). apply Z.pow_mul_l. Qed.

Lemma exact_decimal_sound (m e : Z) :
  0 < m -> canonicalb (Finite false m e) = true ->
  0 < fst (exact_decimal m e)
  /\ decimal_to_number false (fst (exact_decimal m e)) (snd (exact_decimal m e))
     = Finite false m e.
Proof.
  intros Hm Hcan. unfold exact_decimal, decimal_to_number, frac_of.
  destruct (0 <=? e) eqn:E; cbn [fst snd].
  - apply Z.leb_le in E. pose proof (pow2_pos e E) as P.
    change (0 <=? 0) with true. cbn [fst snd].
    split; [nia|].
    apply round_exact; [lia|assumption|assumption|].
    unfold represents.
    rewrite (Z.max_l 0 (- e)), (Z.max_r 0 e) by lia.
    rewrite !Z.pow_0_r. ring.
  - rewrite E. cbn [fst snd]. apply Z.leb_gt in E.
    pose proof (Z.pow_pos_nonneg 5 (- e) ltac:(lia) ltac:(lia)) as P.
    split; [nia|].
    apply round_exact;
      [apply Z.pow_pos_nonneg; lia|assumption|assumption|].
    unfold represents.
    rewrite (Z.max_r 0 (- e)), (Z.max_l 0 e) by lia.
    rewrite Z.pow_0_r, (pow10_split (- e)) by lia. ring.
Qed.

(** The decimal [Number::toString] writes converts back to the value. *)
Lemma shortest_decimal_sound (m e : Z) :
  0 < m -> canonicalb (Finite false m e) = true ->
  0 < fst (shortest_decimal m e)
  /\ decimal_to_number false (fst (shortest_decimal m e))
       (snd (shortest_decimal m e)) = Finite false m e.
Proof.
  intros Hm Hcan. unfold shortest_decimal.
  destruct (shortest_from 17 m e _ 1) as [[s d]|] eqn:E.
  - cbn [fst snd]. exact (shortest_from_sound 17 m e _ Hm 1 s d E).
  - now apply exact_decimal_sound.
Qed.

Lemma layout_head (c0 : CodeUnit) (l0 : JsString) (n : Z) :
  is_digit c0 = true ->
  exists c l, layout (c0 :: l0) n = c :: l /\ is_digit c = true.
Proof.
  intros Hc. unfold layout.
  set (k := Z.of_nat (length (c0 :: l0))).
  destruct ((k <=? n) && (n <=? 21)); [cbn [app]; eauto|].
  destruct ((0 <? n) && (n <=? 21)) eqn:EB.
  { apply andb_true_iff in EB as [EB _]. apply Z.ltb_lt in EB.
    destruct (Z.to_nat n) eqn:En; [lia|]. cbn [firstn app]. eauto. }
  destruct ((-6 <? n) && (n <=? 0)); [cbn [app]; eauto|].
  destruct (k =? 1); cbn [firstn app]; eauto.
Qed.

Lemma digit_not_minus (c : CodeUnit) :
  is_digit c = true -> (c =? ch "-") = false.
Proof.
  intros H. apply is_digit_iff in H. apply Z.eqb_neq.
  change (ch "-") with 45. lia.
Qed.

(** The text of a finite value starts with a minus sign or a digit. *)
Lemma to_string_head (x : Number) :
  canonicalb x = true -> is_finite x = true ->
  exists c l, to_string x = c :: l /\ (c = ch "-" \/ is_digit c = true).
Proof.
  destruct x as [neg m e|]; [intros Hcan _|discriminate].
  unfold to_string. destruct (m =? 0) eqn:Em; [cbn; eauto|].
  destruct neg; cbn [app]; [eauto|].
  apply Z.eqb_neq in Em.
  assert (Hm : 0 < m) by (apply canonical_iff in Hcan; lia).
  destruct (shortest_decimal_sound m e Hm Hcan) as [Hs _].
  destruct (digit_chars_head _ Hs) as (c0 & l0 & Hds & Hc0).
  assert (Hc : is_digit c0 = true).
  { pose proof (digit_chars_digits _ (Z.lt_le_incl _ _ Hs)) as Hall.
    rewrite Hds in Hall. simpl in Hall.
    now apply andb_true_iff in Hall as [-> _]. }
  rewrite Hds.
  destruct (layout_head c0 l0 (snd (shortest_decimal m e)
                               + Z.of_nat (length (c0 :: l0))) Hc)
    as (c & l & -> & Hd).
  eauto.
Qed.

(** The text of a finite value in canonical form, read as a JSON number,
    is the value again (the negative zero comes back as zero). *)
Lemma lex_to_string (x : Number) (rest : JsString) :
  canonicalb x = true -> is_finite x = true -> number_end rest ->
  lex_number (to_string x ++ rest) = Some (normalize x, rest).
Proof.
  destruct x as [neg m e|]; [intros Hcan _ Hend|discriminate].
  unfold to_string, normalize.
  destruct (m =? 0) eqn:Em.
  - (* zero *)
    change (js "0" ++ rest) with (ch "0" :: rest).
    unfold lex_number. change (ch "0" =? ch "-") with false.
    rewrite (lex_unsigned_parts false _ [ch "0"] rest [] rest 0 rest).
    + cbn [app length]. change (digits_value [ch "0"]) with 0.
      now rewrite decimal_zero.
    + apply (span_digits_app [ch "0"]);
        [reflexivity|now apply number_end_no_digit].
    + reflexivity.
    + now apply lex_fraction_none.
    + now apply lex_exponent_none.
  - apply Z.eqb_neq in Em.
    assert (Hm : 0 < m).
    { apply canonical_iff in Hcan. lia. }
    assert (Hcan' : canonicalb (Finite false m e) = true) by exact Hcan.
    destruct (shortest_decimal_sound m e Hm Hcan') as [Hs Hconv].
    set (s := fst (shortest_decimal m e)) in *.
    set (d := snd (shortest_decimal m e)) in *.
    pose proof (lex_layout neg s (d + Z.of_nat (length (digit_chars s)))
                  rest Hs Hend) as Hlex.
    replace (d + Z.of_nat (length (digit_chars s))
             - Z.of_nat (length (digit_chars s))) with d in Hlex by lia.
    rewrite decimal_to_number_sign, Hconv in Hlex. cbn [with_sign] in Hlex.
    destruct neg.
    + cbn [app]. unfold lex_number. rewrite Z.eqb_refl. exact Hlex.
    + cbn [app].
      destruct (digit_chars_head s Hs) as (c0 & l0 & Hds & Hc0).
      assert (Hc : is_digit c0 = true).
      { pose proof (digit_chars_digits s ltac:(lia)) as Hall.
        rewrite Hds in Hall. simpl in Hall.
        now apply andb_true_iff in Hall as [-> _]. }
      rewrite Hds in *.
      destruct (layout_head c0 l0 (d + Z.of_nat (length (c0 :: l0))) Hc)
        as (c & l & El & Hd).
      rewrite El in *. cbn [app] in *. unfold lex_number.
      rewrite (digit_not_minus c Hd). exact Hlex.
Qed.

(** A number literal converts to a value in canonical form. *)
Lemma lex_unsigned_canonical (neg : bool) (s : JsString) (x : Number)
    (r : JsString) :
  lex_unsigned neg s = Some (x, r) -> canonicalb x = true.
Proof.
  unfold lex_unsigned.
  destruct (int_part_ok _); [|discriminate].
  destruct (lex_fraction _) as [[fp s2]|] eqn:Ef; [|discriminate].
  destruct (lex_exponent s2) as [[ex s3]|]; [|discriminate].
  intros H; injection H as <- _.
  apply decimal_to_number_canonical, digits_value_nonneg.
  rewrite forallb_app, span_digits_all. cbn [andb].
  unfold lex_fraction in Ef.
  destruct (snd (span_digits s)) as [|c r0]; [now injection Ef as <- _|].
  destruct (c =? ch ".").
  - pose proof (span_digits_all r0) as Hall.
    destruct (fst (span_digits r0)); [discriminate|].
    now injection Ef as <- _.
  - now injection Ef as <- _.
Qed.

Lemma lex_number_canonical (s : JsString) (x : Number) (r : JsString) :
  lex_number s = Some (x, r) -> canonicalb x = true.
Proof.
  unfold lex_number. destruct s as [|c s']; [discriminate|].
  destruct (c =? ch "-"); apply lex_unsigned_canonical.
Qed.

End NumberFacts.

(* ===================================================================== *)
(** * QuoteJSONString and back *)
(* ===================================================================== *)

Module StringFacts.

Import Json.

Lemma string_eqb_refl (s : JsString) : JsStr.eqb s s = true.
Proof.
  induction s as [|c s IH]; simpl; [reflexivity|].
  now rewrite Z.eqb_refl, IH.
Qed.

Lemma string_eqb_eq (s t : JsString) : JsStr.eqb s t = true <-> s = t.
Proof.
  split; [|intros ->; apply string_eqb_refl].
  revert t. induction s as [|c s IH]; intros [|d t]; simpl;
    try discriminate; [reflexivity|].
  intros H. apply andb_true_iff in H as [H1 H2].
  apply Z.eqb_eq in H1. apply IH in H2. now subst.
Qed.

Lemma string_eqb_sym (s t : JsString) : JsStr.eqb s t = JsStr.eqb t s.
Proof.
  destruct (JsStr.eqb s t) eqn:E.
  - apply string_eqb_eq in E. subst. symmetry. apply string_eqb_refl.
  - destruct (JsStr.eqb t s) eqn:E'; [|reflexivity].
    apply string_eqb_eq in E'. subst. now rewrite string_eqb_refl in E.
Qed.

Lemma hex_value_char (d : Z) :
  0 <= d < 16 -> hex_value (hex_char d) = Some d.
Proof.
  intros H. unfold hex_char, hex_value.
  destruct (d <? 10) eqn:E.
  - apply Z.ltb_lt in E.
    replace ((48 <=? d + 48) && (d + 48 <=? 57)) with true
      by (symmetry; apply andb_true_iff; lia).
    f_equal. lia.
  - apply Z.ltb_ge in E.
    replace ((48 <=? d + 87) && (d + 87 <=? 57)) with false
      by (symmetry; apply andb_false_iff; lia).
    replace ((97 <=? d + 87) && (d + 87 <=? 102)) with true
      by (symmetry; apply andb_true_iff; lia).
    f_equal. lia.
Qed.

Lemma parse_unicode_escape (c : CodeUnit) (tail : JsString) :
  0 <= c < 65536 ->
  parse_string (unicode_escape c ++ tail) = cons_unit c (parse_string tail).
Proof.
  intros Hc. unfold unicode_escape. cbn [app parse_string].
  change (ch "\" =? 34) with false. change (ch "\" =? 92) with true.
  cbn iota. rewrite Z.eqb_refl. unfold hex4_value.
  rewrite !hex_value_char by (apply Z.mod_pos_bound; lia).
  f_equal. Z.div_mod_to_equations. lia.
Qed.

(** Reading what [quote_unit] wrote gives the code unit. *)
Lemma parse_quote_unit (c : CodeUnit) (tail : JsString) :
  0 <= c ->
  parse_string (quote_unit c ++ tail) = cons_unit c (parse_string tail).
Proof.
  intros Hc. unfold quote_unit.
  destruct (c =? 8) eqn:E8; [apply Z.eqb_eq in E8; subst; reflexivity|].
  destruct (c =? 9) eqn:E9; [apply Z.eqb_eq in E9; subst; reflexivity|].
  destruct (c =? 10) eqn:E10; [apply Z.eqb_eq in E10; subst; reflexivity|].
  destruct (c =? 12) eqn:E12; [apply Z.eqb_eq in E12; subst; reflexivity|].
  destruct (c =? 13) eqn:E13; [apply Z.eqb_eq in E13; subst; reflexivity|].
  destruct (c =? 34) eqn:E34; [apply Z.eqb_eq in E34; subst; reflexivity|].
  destruct (c =? 92) eqn:E92; [apply Z.eqb_eq in E92; subst; reflexivity|].
  destruct ((c <? 32) || is_high_surrogate c || is_low_surrogate c) eqn:E.
  - apply parse_unicode_escape.
    unfold is_high_surrogate, is_low_surrogate in E.
    apply orb_true_iff in E as [E|E];
      [apply orb_true_iff in E as [E|E]|]; lia.
  - apply orb_false_iff in E as [E _]. apply orb_false_iff in E as [E _].
    cbn [app parse_string]. now rewrite E34, E92, E.
Qed.

Lemma parse_surrogate (c : CodeUnit) (tail : JsString) :
  is_high_surrogate c || is_low_surrogate c = true ->
  parse_string (c :: tail) = cons_unit c (parse_string tail).
Proof.
  intros H. unfold is_high_surrogate, is_low_surrogate in H.
  cbn [parse_string].
  replace (c =? 34) with false by (symmetry; apply Z.eqb_neq; lia).
  replace (c =? 92) with false by (symmetry; apply Z.eqb_neq; lia).
  replace (c <? 32) with false by (symmetry; apply Z.ltb_ge; lia).
  reflexivity.
Qed.

Lemma quote_body_pair (c c2 : CodeUnit) (r2 : JsString) :
  quote_body (c :: c2 :: r2)
  = if is_high_surrogate c && is_low_surrogate c2
    then c :: c2 :: quote_body r2
    else quote_unit c ++ quote_body (c2 :: r2).
Proof. reflexivity. Qed.

Lemma parse_quote_body_bounded (n : nat) :
  forall (s rest : JsString),
  (length s <= n)%nat -> wf_string s = true ->
  parse_string (quote_body s ++ dquote :: rest) = Some (s, rest).
Proof.
  induction n as [|n IH]; intros s rest Hlen Hwf.
  - destruct s; [reflexivity|simpl in Hlen; lia].
  - destruct s as [|c [|c2 r2]]; [reflexivity| |].
    + simpl in Hwf. rewrite andb_true_r in Hwf. apply Z.leb_le in Hwf.
      cbn [quote_body]. rewrite parse_quote_unit by assumption.
      reflexivity.
    + rewrite quote_body_pair.
      unfold wf_string in Hwf. cbn [forallb] in Hwf.
      apply andb_true_iff in Hwf as [Hc Hwf].
      apply Z.leb_le in Hc.
      destruct (is_high_surrogate c && is_low_surrogate c2) eqn:E.
      * apply andb_true_iff in E as [E1 E2]. cbn [app].
        rewrite parse_surrogate by (rewrite E1; reflexivity).
        rewrite parse_surrogate by (rewrite E2; apply orb_true_r).
        rewrite IH; [reflexivity|simpl in Hlen; lia|].
        apply andb_true_iff in Hwf as [_ Hwf]. exact Hwf.
      * rewrite <- app_assoc, parse_quote_unit by assumption.
        rewrite IH; [reflexivity|simpl in *; lia|exact Hwf].
Qed.

(** Reading a quoted string gives the string. *)
Lemma parse_quote (s rest : JsString) :
  wf_string s = true ->
  parse_string (quote_body s ++ dquote :: rest) = Some (s, rest).
Proof. apply (parse_quote_body_bounded (length s)). lia. Qed.

Lemma hex_value_nonneg (c : CodeUnit) (d : Z) :
  hex_value c = Some d -> 0 <= d.
Proof.
  unfold hex_value.
  destruct ((48 <=? c) && (c <=? 57)) eqn:E1;
    [intros H; injection H as <-; lia|].
  destruct ((97 <=? c) && (c <=? 102)) eqn:E2;
    [intros H; injection H as <-; lia|].
  destruct ((65 <=? c) && (c <=? 70)) eqn:E3;
    [intros H; injection H as <-; lia|discriminate].
Qed.

Lemma escape_value_nonneg (c u : CodeUnit) :
  escape_value c = Some u -> 0 <= u.
Proof.
  unfold escape_value.
  repeat match goal with
         | |- context [if ?b then _ else _] => destruct b
         end; intros H; try discriminate; injection H as <-; lia.
Qed.

Lemma cons_unit_wf (c : CodeUnit) (res : option (JsString * JsString))
    (str r : JsString) :
  0 <= c ->
  (forall str' r', res = Some (str', r') -> wf_string str' = true) ->
  cons_unit c res = Some (str, r) -> wf_string str = true.
Proof.
  intros Hc Hres. destruct res as [[str' r']|]; simpl; [|discriminate].
  intros H; injection H as <- <-. simpl.
  rewrite (Hres str' r' eq_refl). apply andb_true_iff. split; [lia|reflexivity].
Qed.

Lemma parse_string_wf_bounded (n : nat) :
  forall (s str r : JsString),
  (length s <= n)%nat ->
  parse_string s = Some (str, r) -> wf_string str = true.
Proof.
  induction n as [|n IH]; intros s str r Hlen.
  - destruct s; [discriminate|simpl in Hlen; lia].
  - destruct s as [|c s']; [discriminate|]. cbn [parse_string].
    simpl in Hlen.
    destruct (c =? 34); [intros H; injection H as <- _; reflexivity|].
    destruct (c =? 92).
    + destruct s' as [|x r1]; [discriminate|].
      destruct (x =? ch "u").
      * destruct r1 as [|h1 [|h2 [|h3 [|h4 r2]]]]; try discriminate.
        unfold hex4_value.
        destruct (hex_value h1) as [a|] eqn:E1; [|discriminate].
        destruct (hex_value h2) as [b|] eqn:E2; [|discriminate].
        destruct (hex_value h3) as [c3|] eqn:E3; [|discriminate].
        destruct (hex_value h4) as [d|] eqn:E4; [|discriminate].
        apply hex_value_nonneg in E1, E2, E3, E4.
        apply cons_unit_wf; [lia|].
        intros str' r'. apply IH. simpl in Hlen. lia.
      * destruct (escape_value x) as [u|] eqn:Eu; [|discriminate].
        apply escape_value_nonneg in Eu.
        apply cons_unit_wf; [assumption|].
        intros str' r'. apply IH. simpl in Hlen. lia.
    + destruct (c <? 32) eqn:E; [discriminate|]. apply Z.ltb_ge in E.
      apply cons_unit_wf; [lia|].
      intros str' r'. apply IH. lia.
Qed.

(** The strings [parse_string] reads have no negative code unit. *)
Lemma parse_string_wf (s str r : JsString) :
  parse_string s = Some (str, r) -> wf_string str = true.
Proof. apply (parse_string_wf_bounded (length s)). lia. Qed.

End StringFacts.

(* ===================================================================== *)
(** * Objects: properties in order *)
(* ===================================================================== *)

Module ObjectFacts.

Import Json StringFacts.

Section Properties.
Context {V : Type}.
Implicit Types (o : list (JsString * V)) (k : JsString) (v : V).

Lemma replace_value_keys k v o :
  map fst (replace_value k v o) = map fst o.
Proof.
  induction o as [|[k' v'] o IH]; [reflexivity|].
  cbn [replace_value fst]. destruct (JsStr.eqb k k') eqn:E.
  - apply string_eqb_eq in E. now subst.
  - cbn [map fst]. now rewrite IH.
Qed.

Lemma insert_key_all (P : JsString -> bool) k v o :
  forallb P (map fst (insert_key k v o))
  = P k && forallb P (map fst o).
Proof.
  induction o as [|[k' v'] o IH]; [reflexivity|].
  cbn [insert_key fst]. destruct (goes_before k k'); [reflexivity|].
  cbn [map fst forallb]. rewrite IH.
  destruct (P k), (P k'); reflexivity.
Qed.

Lemma has_key_false k o :
  has_key k o = false <->
  forallb (fun k' => negb (JsStr.eqb k k')) (map fst o) = true.
Proof.
  unfold has_key. induction o as [|[k' v'] o IH]; [simpl; tauto|].
  cbn [existsb map forallb fst].
  rewrite orb_false_iff, andb_true_iff, negb_true_iff, IH. tauto.
Qed.

(** A key that may follow all the keys of the object is put last. *)
Lemma define_property_last k v o :
  forallb (fun k' => may_follow k k') (map fst o) = true ->
  define_property k v o = o ++ [(k, v)].
Proof.
  intros H. unfold define_property.
  assert (Hk : has_key k o = false).
  { apply has_key_false. revert H. generalize (map fst o). intros l.
    induction l as [|k' l IHl]; [reflexivity|]. cbn [forallb].
    intros H. apply andb_true_iff in H as [H1 H2].
    unfold may_follow in H1. apply andb_true_iff in H1 as [-> _].
    now rewrite (IHl H2). }
  rewrite Hk. clear Hk.
  induction o as [|[k' v'] o IH]; [reflexivity|].
  cbn [map fst forallb] in H. apply andb_true_iff in H as [H1 H2].
  cbn [insert_key fst]. unfold may_follow in H1.
  apply andb_true_iff in H1 as [_ H1]. apply negb_true_iff in H1.
  rewrite H1, (IH H2). reflexivity.
Qed.

End Properties.

Lemma goes_before_cases (k k' : JsString) :
  goes_before k k' = true ->
  exists i, array_index k = Some i
            /\ (array_index k' = None
                \/ exists j, array_index k' = Some j /\ i < j).
Proof.
  unfold goes_before.
  destruct (array_index k) as [i|]; [|discriminate].
  destruct (array_index k') as [j|]; intros H; exists i; split; auto.
  right. exists j. split; [reflexivity|]. now apply Z.ltb_lt.
Qed.

Lemma goes_before_asym (k k' : JsString) :
  goes_before k k' = true -> goes_before k' k = false.
Proof.
  intros H. apply goes_before_cases in H as (i & Hi & [Hn|(j & Hj & Hij)]);
    unfold goes_before; rewrite Hi.
  - now rewrite Hn.
  - rewrite Hj. apply Z.ltb_ge. lia.
Qed.

(** A key that does not go before [k'] does not go before a key that
    does. *)
Lemma goes_before_trans (k k' k2 : JsString) :
  goes_before k k' = true -> goes_before k2 k' = false ->
  goes_before k2 k = false.
Proof.
  intros H H2. apply goes_before_cases in H as (i & Hi & Hk').
  unfold goes_before in *. rewrite Hi.
  destruct (array_index k2) as [l|]; [|reflexivity].
  destruct Hk' as [Hn|(j & Hj & Hij)].
  - now rewrite Hn in H2.
  - rewrite Hj in H2. apply Z.ltb_ge in H2. apply Z.ltb_ge. lia.
Qed.

Lemma insert_key_ordered {V : Type} (k : JsString) (v : V)
    (o : list (JsString * V)) :
  has_key k o = false ->
  ordered_keys (map fst o) = true ->
  ordered_keys (map fst (insert_key k v o)) = true.
Proof.
  intros Hk Ho. apply has_key_false in Hk.
  induction o as [|[k' v'] o IH]; [reflexivity|].
  cbn [map fst forallb ordered_keys] in *.
  apply andb_true_iff in Hk as [Hkk' Hk].
  apply andb_true_iff in Ho as [Hall Ho].
  apply negb_true_iff in Hkk'.
  cbn [insert_key fst]. destruct (goes_before k k') eqn:E.
  - cbn [map fst ordered_keys forallb]. rewrite Hall, Ho, !andb_true_r.
    apply andb_true_iff. split.
    + unfold may_follow. rewrite string_eqb_sym, Hkk'.
      now rewrite (goes_before_asym k k' E).
    + rewrite forallb_forall in *. intros k2 Hin.
      specialize (Hall k2 Hin). specialize (Hk k2 Hin).
      unfold may_follow in *.
      apply negb_true_iff in Hk. rewrite string_eqb_sym, Hk. cbn [negb andb].
      apply andb_true_iff in Hall as [_ Hall]. apply negb_true_iff in Hall.
      now rewrite (goes_before_trans k k' k2 E Hall).
  - cbn [map fst ordered_keys]. rewrite insert_key_all, Hall, (IH Hk Ho).
    unfold may_follow. now rewrite Hkk', E.
Qed.

(** CreateDataProperty keeps the keys in order. *)
Lemma define_property_ordered {V : Type} (k : JsString) (v : V)
    (o : list (JsString * V)) :
  ordered_keys (map fst o) = true ->
  ordered_keys (map fst (define_property k v o)) = true.
Proof.
  intros Ho. unfold define_property.
  destruct (has_key k o) eqn:E.
  - now rewrite replace_value_keys.
  - now apply insert_key_ordered.
Qed.

Lemma define_property_all {V : Type} (P : JsString * V -> bool)
    (k : JsString) (v : V) (o : list (JsString * V)) :
  P (k, v) = true -> forallb P o = true ->
  forallb P (define_property k v o) = true.
Proof.
  intros Hk Ho. unfold define_property. destruct (has_key k o).
  - induction o as [|kv o IH]; [reflexivity|].
    cbn [forallb] in Ho. apply andb_true_iff in Ho as [H1 H2].
    cbn [replace_value]. destruct (JsStr.eqb k (fst kv)); cbn [forallb].
    + now rewrite Hk, H2.
    + now rewrite H1, (IH H2).
  - induction o as [|kv o IH]; [simpl; now rewrite Hk|].
    cbn [forallb] in Ho. apply andb_true_iff in Ho as [H1 H2].
    cbn [insert_key]. destruct (goes_before k (fst kv)); cbn [forallb].
    + now rewrite Hk, H1, H2.
    + now rewrite H1, (IH H2).
Qed.

(** In a list of keys in order, a key may follow all those before it. *)
Lemma ordered_keys_middle (p : list JsString) (k : JsString)
    (s : list JsString) :
  ordered_keys (p ++ k :: s) = true ->
  forallb (fun k' => may_follow k k') p = true.
Proof.
  induction p as [|k' p IH]; [reflexivity|].
  cbn [app ordered_keys forallb]. intros H.
  apply andb_true_iff in H as [H1 H2].
  rewrite (IH H2), andb_true_r.
  rewrite forallb_app in H1. apply andb_true_iff in H1 as [_ H1].
  cbn [forallb] in H1. now apply andb_true_iff in H1 as [-> _].
Qed.

End ObjectFacts.

(* ===================================================================== *)
(** * JSON.parse after JSON.stringify *)
(* ===================================================================== *)

Module ParseFacts.

Import Json StringFacts ObjectFacts.

(** Induction on values, with the hypothesis for every item of an array
    and every property value of an object. *)
Lemma Value_induction (P : Value -> Prop) :
  P VNull ->
  (forall b, P (VBool b)) ->
  (forall x, P (VNumber x)) ->
  (forall s, P (VString s)) ->
  (forall items, Forall P items -> P (VArray items)) ->
  (forall props, Forall (fun kv => P (snd kv)) props -> P (VObject props)) ->
  forall v, P v.
Proof.
  intros Hnull Hbool Hnum Hstr Harr Hobj.
  fix IH 1. intros [| b | x | s | items | props].
  - exact Hnull.
  - apply Hbool.
  - apply Hnum.
  - apply Hstr.
  - apply Harr. induction items as [|v items IHitems]; constructor.
    + apply IH.
    + exact IHitems.
  - apply Hobj. induction props as [|[k v] props IHprops]; constructor.
    + apply IH.
    + exact IHprops.
Qed.

(** ** White space *)

Lemma skip_ws_blank (ws s : JsString) :
  blank ws = true -> skip_ws (ws ++ s) = skip_ws s.
Proof.
  unfold blank. induction ws as [|c ws IH]; [reflexivity|].
  cbn [forallb app skip_ws]. intros H.
  apply andb_true_iff in H as [-> H]. now apply IH.
Qed.

Lemma skip_ws_stop (c : CodeUnit) (s : JsString) :
  is_ws c = false -> skip_ws (c :: s) = c :: s.
Proof. intros H. cbn [skip_ws]. now rewrite H. Qed.

Lemma parse_value_blank (fuel : nat) (ws s : JsString) :
  blank ws = true -> parse_value fuel (ws ++ s) = parse_value fuel s.
Proof.
  intros H. destruct fuel as [|f]; [reflexivity|].
  cbn [parse_value]. now rewrite skip_ws_blank.
Qed.

Lemma blank_app (s t : JsString) :
  blank s = true -> blank t = true -> blank (s ++ t) = true.
Proof. unfold blank. intros Hs Ht. now rewrite forallb_app, Hs, Ht. Qed.

Lemma blank_gap_of (space : option Z) : blank (gap_of space) = true.
Proof.
  destruct space as [n|]; [|reflexivity]. unfold gap_of, blank.
  induction (Z.to_nat (Z.min 10 n)) as [|k IH]; [reflexivity|exact IH].
Qed.

(** ** The first code unit decides the kind of value *)

Lemma parse_value_array (f : nat) (s r : JsString) :
  skip_ws s = ch "[" :: r ->
  parse_value (S f) s
  = match skip_ws r with
    | c' :: r' => if c' =? ch "]" then Some (VArray [], r')
                  else parse_elements (parse_value f) f r []
    | [] => None
    end.
Proof. intros H. cbn [parse_value]. rewrite H. reflexivity. Qed.

Lemma parse_value_object (f : nat) (s r : JsString) :
  skip_ws s = ch "{" :: r ->
  parse_value (S f) s
  = match skip_ws r with
    | c' :: r' => if c' =? ch "}" then Some (VObject [], r')
                  else parse_members (parse_value f) f r []
    | [] => None
    end.
Proof. intros H. cbn [parse_value]. rewrite H. reflexivity. Qed.

Lemma parse_value_string (f : nat) (s r : JsString) :
  skip_ws s = dquote :: r ->
  parse_value (S f) s
  = match parse_string r with
    | Some (str, r') => Some (VString str, r')
    | None => None
    end.
Proof. intros H. cbn [parse_value]. rewrite H. reflexivity. Qed.

Lemma parse_value_number (f : nat) (s : JsString) (c : CodeUnit)
    (r : JsString) :
  skip_ws s = c :: r ->
  c = ch "-" \/ Num.is_digit c = true ->
  parse_value (S f) s
  = match Num.lex_number (c :: r) with
    | Some (x, r') => Some (VNumber x, r')
    | None => None
    end.
Proof.
  intros H Hc. cbn [parse_value]. rewrite H.
  assert (Hr : 45 <= c <= 57).
  { destruct Hc as [->|Hc]; [cbv; split; discriminate|].
    unfold Num.is_digit in Hc. lia. }
  replace (c =? ch "{") with false
    by (symmetry; apply Z.eqb_neq; change (ch "{") with 123; lia).
  replace (c =? ch "[") with false
    by (symmetry; apply Z.eqb_neq; change (ch "[") with 91; lia).
  replace (c =? 34) with false by (symmetry; apply Z.eqb_neq; lia).
  replace (c =? ch "t") with false
    by (symmetry; apply Z.eqb_neq; change (ch "t") with 116; lia).
  replace (c =? ch "f") with false
    by (symmetry; apply Z.eqb_neq; change (ch "f") with 102; lia).
  replace (c =? ch "n") with false
    by (symmetry; apply Z.eqb_neq; change (ch "n") with 110; lia).
  reflexivity.
Qed.

(** ** The shape of a serialized value *)

Lemma wrap_head (o c : CodeUnit) (gap indent : JsString)
    (parts : list JsString) :
  exists l, wrap o c gap indent parts = o :: l.
Proof.
  unfold wrap. destruct parts; [eauto|]. destruct gap; eauto.
Qed.

Lemma serialize_starts (gap indent : JsString) (v : Value) :
  wf v = true -> starts_value (serialize gap indent v).
Proof.
  intros Hwf. unfold starts_value.
  destruct v as [| [|] | x | s | items | props]; cbn [serialize].
  - exists (ch "n"), (js "ull"). now cbv.
  - exists (ch "t"), (js "rue"). now cbv.
  - exists (ch "f"), (js "alse"). now cbv.
  - destruct (Num.is_finite x) eqn:Ef;
      [|exists (ch "n"), (js "ull"); now cbv].
    destruct (NumberFacts.to_string_head x Hwf Ef) as (c & l & -> & Hc).
    exists c, l. split; [reflexivity|].
    assert (Hr : 45 <= c <= 57).
    { destruct Hc as [->|Hc]; [cbv; split; discriminate|].
      unfold Num.is_digit in Hc. lia. }
    unfold is_ws. change (ch "]") with 93. change (ch "}") with 125.
    repeat split; try (apply Z.eqb_neq; lia).
    repeat (apply orb_false_iff; split); apply Z.eqb_neq; lia.
  - exists dquote, (quote_body s ++ [dquote]). now cbv.
  - destruct (wrap_head (ch "[") (ch "]") gap indent
                (map (serialize gap (indent ++ gap)) items)) as [l ->].
    exists (ch "["), l. now cbv.
  - match goal with
    | |- context [wrap ?o ?c ?g ?i ?p] =>
        destruct (wrap_head o c g i p) as [l ->]
    end.
    exists (ch "{"), l. now cbv.
Qed.

(** The text of a non-empty array or object: the opening, the parts with
    commas between them, the closing, with white space (none when there is
    no gap) after the opening and each comma and before the closing. *)
Lemma wrap_parts (o c : CodeUnit) (gap indent : JsString)
    (parts : list JsString) :
  parts <> [] -> blank gap = true -> blank indent = true ->
  exists pre post,
    blank pre = true /\ blank post = true
    /\ wrap o c gap indent parts
       = o :: pre ++ join (ch "," :: pre) parts ++ post ++ [c].
Proof.
  intros Hne Hgap Hind. unfold wrap.
  destruct parts as [|p ps]; [contradiction|].
  destruct gap as [|g gap'].
  - exists [], []. repeat split; reflexivity.
  - exists (newline :: indent ++ g :: gap'), (newline :: indent).
    split; [|split].
    + change (newline :: indent ++ g :: gap')
        with ([newline] ++ indent ++ g :: gap').
      apply blank_app; [reflexivity|now apply blank_app].
    + change (newline :: indent) with ([newline] ++ indent).
      now apply blank_app.
    + cbn [app]. reflexivity.
Qed.

Lemma join_cons2 (sep p q : JsString) (ps : list JsString) :
  join sep (p :: q :: ps) = p ++ sep ++ join sep (q :: ps).
Proof. reflexivity. Qed.

Lemma join_length_part (sep p : JsString) (parts : list JsString) :
  In p parts -> (length p <= length (join sep parts))%nat.
Proof.
  induction parts as [|q [|q' ps] IH]; [contradiction| |].
  - intros [->|[]]. simpl. lia.
  - intros Hin. rewrite join_cons2, !length_app.
    destruct Hin as [->|Hin]; [lia|]. specialize (IH Hin). lia.
Qed.

Lemma join_length_count (sep : JsString) (parts : list JsString) :
  Forall (fun p => p <> []) parts ->
  (length parts <= length (join sep parts))%nat.
Proof.
  induction parts as [|q [|q' ps] IH]; intros H; [simpl; lia| |].
  - inversion H as [|? ? Hq _]; subst. destruct q; [contradiction|].
    simpl. lia.
  - inversion H as [|? ? Hq Hrest]; subst. specialize (IH Hrest).
    rewrite join_cons2, !length_app.
    destruct q; [contradiction|]. simpl in *. lia.
Qed.

Lemma value_end_close (post : JsString) (c : CodeUnit) (rest : JsString) :
  blank post = true -> c = ch "]" \/ c = ch "}" ->
  value_end (post ++ c :: rest) /\ skip_ws (post ++ c :: rest) = c :: rest.
Proof.
  intros Hpost Hc. split.
  - destruct post as [|p post']; cbn [app value_end]; [tauto|].
    unfold blank in Hpost. cbn [forallb] in Hpost.
    apply andb_true_iff in Hpost as [-> _]. tauto.
  - rewrite skip_ws_blank by assumption. apply skip_ws_stop.
    destruct Hc as [->| ->]; reflexivity.
Qed.

Lemma value_end_number (rest : JsString) :
  value_end rest -> Num.number_end rest.
Proof.
  destruct rest as [|c r]; [auto|]. cbn [value_end Num.number_end].
  unfold is_ws, Num.is_digit.
  change (ch ",") with 44. change (ch "]") with 93. change (ch "}") with 125.
  change (ch ".") with 46. change (ch "e") with 101. change (ch "E") with 69.
  intros H. repeat split; lia.
Qed.

End ParseFacts.

(* ===================================================================== *)
(** * Reading the elements and members that were written *)
(* ===================================================================== *)

Module RoundTrip.

Import Json StringFacts ObjectFacts ParseFacts.

(** ** One turn of the loops *)

Lemma parse_elements_step (pv : JsString -> Parsed) (n : nat)
    (s : JsString) (acc : list Value) (v : Value) (r : JsString)
    (c : CodeUnit) (r' : JsString) :
  pv s = Some (v, r) -> skip_ws r = c :: r' ->
  parse_elements pv (S n) s acc
  = if c =? ch "," then parse_elements pv n r' (v :: acc)
    else if c =? ch "]" then Some (VArray (rev (v :: acc)), r')
    else None.
Proof. intros H1 H2. cbn [parse_elements]. now rewrite H1, H2. Qed.

Lemma parse_members_step (pv : JsString -> Parsed) (n : nat)
    (s : JsString) (acc : list (JsString * Value))
    (r0 k r1 r2 : JsString) (v : Value) (r3 : JsString)
    (c : CodeUnit) (r4 : JsString) :
  skip_ws s = dquote :: r0 ->
  parse_string r0 = Some (k, r1) ->
  skip_ws r1 = ch ":" :: r2 ->
  pv r2 = Some (v, r3) ->
  skip_ws r3 = c :: r4 ->
  parse_members pv (S n) s acc
  = if c =? ch "," then parse_members pv n r4 (define_property k v acc)
    else if c =? ch "}" then Some (VObject (define_property k v acc), r4)
    else None.
Proof.
  intros H0 H1 H2 H3 H4. cbn [parse_members].
  rewrite H0. change (dquote =? 34) with true. cbn iota.
  rewrite H1, H2. change (ch ":" =? ch ":") with true. cbn iota.
  now rewrite H3, H4.
Qed.

(** ** The elements of a serialized array *)

Section Elements.
Variable pv : JsString -> Parsed.
Variable ser : Value -> JsString.
Variables pre post rest : JsString.
Hypothesis pre_blank : blank pre = true.
Hypothesis post_blank : blank post = true.

Lemma parse_elements_serialized (items : list Value) :
  items <> [] -> Forall (reads pv ser) items ->
  forall (n : nat) (lead : JsString) (acc : list Value),
  blank lead = true -> (length items <= n)%nat ->
  parse_elements pv n
    (lead ++ join (ch "," :: pre) (map ser items) ++ post ++ ch "]" :: rest)
    acc
  = Some (VArray (rev acc ++ map normalize items), rest).
Proof.
  induction items as [|x items IH]; [contradiction|].
  intros _ Hall n lead acc Hlead Hn.
  inversion Hall as [|? ? Hx Hrest]; subst.
  destruct n as [|n]; [simpl in Hn; lia|].
  destruct (value_end_close post (ch "]") rest post_blank (or_introl eq_refl))
    as [Hend Hskip].
  destruct items as [|y more].
  - cbn [map join].
    rewrite (parse_elements_step pv n _ acc (normalize x)
               (post ++ ch "]" :: rest) (ch "]") rest);
      [|now apply Hx|assumption].
    cbn [rev]. reflexivity.
  - change (map ser (x :: y :: more))
      with (ser x :: ser y :: map ser more).
    rewrite join_cons2, <- !app_assoc. cbn [app].
    change (ser y :: map ser more) with (map ser (y :: more)).
    rewrite (parse_elements_step pv n _ acc (normalize x)
               (ch "," :: pre ++ join (ch "," :: pre) (map ser (y :: more))
                  ++ post ++ ch "]" :: rest)
               (ch ",")
               (pre ++ join (ch "," :: pre) (map ser (y :: more))
                  ++ post ++ ch "]" :: rest)).
    + rewrite Z.eqb_refl.
      rewrite (IH ltac:(discriminate) Hrest n pre (normalize x :: acc)
                 pre_blank ltac:(simpl in *; lia)).
      cbn [rev map]. now rewrite <- app_assoc.
    + apply Hx; [assumption|]. cbn [value_end]. tauto.
    + now apply skip_ws_stop.
Qed.

End Elements.

(** ** The members of a serialized object *)

Section Members.
Variable pv : JsString -> Parsed.
Variable ser : Value -> JsString.
Variables pre post space rest : JsString.
Hypothesis pre_blank : blank pre = true.
Hypothesis post_blank : blank post = true.
Hypothesis space_blank : blank space = true.

Lemma member_shape (k : JsString) (x : Value) (tail : JsString) :
  member_text ser space (k, x) ++ tail
  = dquote :: quote_body k ++ dquote :: ch ":" :: space ++ ser x ++ tail.
Proof.
  unfold Json.member_text, quote. rewrite <- !app_assoc. cbn [app].
  now rewrite <- !app_assoc.
Qed.

Lemma parse_members_serialized (props : list (JsString * Value)) :
  props <> [] ->
  Forall (fun kv => wf_string (fst kv) = true /\ reads pv ser (snd kv))
    props ->
  forall (n : nat) (lead : JsString) (acc : list (JsString * Value)),
  blank lead = true -> (length props <= n)%nat ->
  ordered_keys (map fst acc ++ map fst props) = true ->
  parse_members pv n
    (lead ++ join (ch "," :: pre) (map (member_text ser space) props)
       ++ post ++ ch "}" :: rest)
    acc
  = Some (VObject (acc ++ map member_value props), rest).
Proof.
  induction props as [|[k x] props IH]; [contradiction|].
  intros _ Hall n lead acc Hlead Hn Hord.
  inversion Hall as [|? ? [Hk Hx] Hrest]; subst. cbn [fst snd] in *.
  destruct n as [|n]; [simpl in Hn; lia|].
  destruct (value_end_close post (ch "}") rest post_blank (or_intror eq_refl))
    as [Hend Hskip].
  assert (Hdef : define_property k (normalize x) acc
                 = acc ++ [(k, normalize x)]).
  { apply define_property_last.
    cbn [map fst] in Hord. now apply ordered_keys_middle in Hord. }
  assert (Hstep : forall (c : CodeUnit) (tail r4 : JsString),
             value_end tail -> skip_ws tail = c :: r4 ->
             parse_members pv (S n)
               (lead ++ member_text ser space (k, x) ++ tail) acc
             = if c =? ch "," then
                 parse_members pv n r4 (acc ++ [(k, normalize x)])
               else if c =? ch "}" then
                 Some (VObject (acc ++ [(k, normalize x)]), r4)
               else None).
  { intros c tail r4 Htail Hsk. rewrite member_shape, <- Hdef.
    apply (parse_members_step pv n _ acc
             (quote_body k ++ dquote :: ch ":" :: space ++ ser x ++ tail)
             k (ch ":" :: space ++ ser x ++ tail)
             (space ++ ser x ++ tail) (normalize x) tail c r4).
    - rewrite skip_ws_blank by assumption. now apply skip_ws_stop.
    - now apply parse_quote.
    - now apply skip_ws_stop.
    - now apply Hx.
    - assumption. }
  destruct props as [|kv more].
  - cbn [map join].
    rewrite (Hstep (ch "}") (post ++ ch "}" :: rest) rest Hend Hskip).
    reflexivity.
  - change (map (member_text ser space) ((k, x) :: kv :: more))
      with (member_text ser space (k, x)
              :: member_text ser space kv
              :: map (member_text ser space) more).
    rewrite join_cons2, <- !app_assoc. cbn [app].
    change (member_text ser space kv :: map (member_text ser space) more)
      with (map (member_text ser space) (kv :: more)).
    set (tail := pre ++ join (ch "," :: pre)
                          (map (member_text ser space) (kv :: more))
                   ++ post ++ ch "}" :: rest).
    rewrite (Hstep (ch ",") (ch "," :: tail) tail);
      [|cbn [value_end]; tauto|now apply skip_ws_stop].
    rewrite Z.eqb_refl. unfold tail.
    rewrite (IH ltac:(discriminate) Hrest n pre (acc ++ [(k, normalize x)])
               pre_blank ltac:(simpl in *; lia)).
    + cbn [map member_value]. now rewrite <- app_assoc.
    + rewrite map_app, <- app_assoc. exact Hord.
Qed.

End Members.

End RoundTrip.

(* ===================================================================== *)
(** * The text of a value is read as the value *)
(* ===================================================================== *)

Module Stringify.

Import Json StringFacts ObjectFacts ParseFacts RoundTrip.

Lemma colon_shape (gap : JsString) :
  blank (tl (colon gap)) = true /\ colon gap = ch ":" :: tl (colon gap).
Proof. destruct gap; split; reflexivity. Qed.

Lemma serialize_object (gap indent : JsString)
    (props : list (JsString * Value)) :
  serialize gap indent (VObject props)
  = wrap (ch "{") (ch "}") gap indent
      (map (member_text (serialize gap (indent ++ gap)) (tl (colon gap)))
         props).
Proof.
  cbn [serialize]. f_equal. apply map_ext. intros [k v'].
  unfold member_text. now rewrite <- (proj2 (colon_shape gap)).
Qed.

Lemma normalize_object (props : list (JsString * Value)) :
  normalize (VObject props) = VObject (map member_value props).
Proof. reflexivity. Qed.

Lemma join_head (sep p : JsString) (ps : list JsString) :
  exists t, join sep (p :: ps) = p ++ t.
Proof.
  destruct ps as [|q ps]; [exists []; simpl; now rewrite app_nil_r|].
  rewrite join_cons2. eauto.
Qed.

Lemma wrap_length (o c : CodeUnit) (gap indent pre post : JsString)
    (parts : list JsString) :
  wrap o c gap indent parts
  = o :: pre ++ join (ch "," :: pre) parts ++ post ++ [c] ->
  (length (join (ch "," :: pre) parts) + 2
   <= length (wrap o c gap indent parts))%nat.
Proof.
  intros ->. cbn [length]. rewrite !length_app. simpl. lia.
Qed.

Lemma starts_value_nonempty (s : JsString) : starts_value s -> s <> [].
Proof. intros (c & l & -> & _). discriminate. Qed.

(** The text of a value in canonical form, with white space before it and
    the end of a value after it, is read as the normalized value, by any
    fuel above the length of the text. *)
Lemma parse_serialize (gap : JsString) :
  blank gap = true ->
  forall v : Value, wf v = true ->
  forall (fuel : nat) (indent lead rest : JsString),
  blank indent = true -> blank lead = true -> value_end rest ->
  (length (serialize gap indent v) < fuel)%nat ->
  parse_value fuel (lead ++ serialize gap indent v ++ rest)
  = Some (normalize v, rest).
Proof.
  intros Hgap v. induction v as [| b | x | s | items IH | props IH]
    using Value_induction;
    intros Hwf fuel indent lead rest Hind Hlead Hend Hfuel;
    rewrite parse_value_blank by assumption;
    (destruct fuel as [|f]; [lia|]).
  - reflexivity.
  - destruct b; reflexivity.
  - cbn [serialize normalize]. cbn [wf] in Hwf.
    destruct (Num.is_finite x) eqn:Ef; [|reflexivity].
    destruct (NumberFacts.to_string_head x Hwf Ef) as (c & l & Ex & Hc).
    assert (Hws : is_ws c = false).
    { assert (45 <= c <= 57).
      { destruct Hc as [->|Hc]; [cbv; split; discriminate|].
        unfold Num.is_digit in Hc. lia. }
      unfold is_ws. lia. }
    pose proof (NumberFacts.lex_to_string x rest Hwf Ef
                  (value_end_number rest Hend)) as Hlex.
    rewrite Ex in *. cbn [app] in *.
    rewrite (parse_value_number f _ c (l ++ rest));
      [|now apply skip_ws_stop|assumption].
    now rewrite Hlex.
  - cbn [serialize normalize]. unfold quote. cbn [app].
    rewrite <- app_assoc. cbn [app].
    rewrite (parse_value_string f _ (quote_body s ++ dquote :: rest));
      [|now apply skip_ws_stop].
    now rewrite parse_quote.
  - (* arrays *)
    destruct items as [|x items]; [reflexivity|].
    cbn [serialize normalize].
    set (ser := serialize gap (indent ++ gap)).
    set (parts := map ser (x :: items)).
    destruct (wrap_parts (ch "[") (ch "]") gap indent parts
                ltac:(discriminate) Hgap Hind)
      as (pre & post & Hpre & Hpost & Ewrap).
    cbn [serialize] in Hfuel. fold ser parts in Hfuel.
    pose proof (wrap_length _ _ _ _ _ _ _ Ewrap) as Hlen.
    rewrite Ewrap. cbn [app]. rewrite <- !app_assoc. cbn [app].
    cbn [wf] in Hwf.
    assert (Hstart : forall y, In y (x :: items) -> wf y = true).
    { apply forallb_forall. exact Hwf. }
    rewrite (parse_value_array f _ (pre ++ join (ch "," :: pre) parts
                                      ++ post ++ ch "]" :: rest));
      [|now apply skip_ws_stop].
    rewrite skip_ws_blank by assumption.
    destruct (join_head (ch "," :: pre) (ser x) (map ser items)) as [t Et].
    destruct (serialize_starts gap (indent ++ gap) x
                (Hstart x (or_introl eq_refl)))
      as (c1 & l1 & E1 & Hws & Hnb & _).
    fold ser in E1. unfold parts at 1. cbn [map]. rewrite Et, E1.
    cbn [app]. rewrite skip_ws_stop by assumption. rewrite Hnb.
    apply (parse_elements_serialized (parse_value f) ser pre post rest
             Hpre Hpost (x :: items) ltac:(discriminate)).
    + (* every item is read *)
      rewrite Forall_forall in *. intros y Hy lead' tail Hl Ht.
      apply (IH y Hy (Hstart y Hy)); try assumption;
        [now apply blank_app|].
      pose proof (join_length_part (ch "," :: pre) (ser y) parts
                    (in_map ser _ y Hy)).
      fold ser. lia.
    + assumption.
    + (* the loop has fuel for every item *)
      assert (Hcount : (length parts
                        <= length (join (ch "," :: pre) parts))%nat).
      { apply join_length_count. unfold parts.
        rewrite Forall_forall. intros p Hp.
        apply in_map_iff in Hp as (y & <- & Hy).
        apply starts_value_nonempty, serialize_starts. now apply Hstart. }
      unfold parts in Hcount at 1. rewrite length_map in Hcount. lia.
  - (* objects *)
    destruct props as [|[k x] props]; [reflexivity|].
    rewrite serialize_object, normalize_object.
    rewrite serialize_object in Hfuel.
    destruct (colon_shape gap) as [Hsp _].
    set (space := tl (colon gap)) in *.
    set (ser := serialize gap (indent ++ gap)) in *.
    set (parts := map (member_text ser space) ((k, x) :: props)) in *.
    destruct (wrap_parts (ch "{") (ch "}") gap indent parts
                ltac:(discriminate) Hgap Hind)
      as (pre & post & Hpre & Hpost & Ewrap).
    pose proof (wrap_length _ _ _ _ _ _ _ Ewrap) as Hlen.
    rewrite Ewrap. cbn [app]. rewrite <- !app_assoc. cbn [app].
    cbn [wf] in Hwf. apply andb_true_iff in Hwf as [Hord Hwf].
    assert (Hprop : forall kv, In kv ((k, x) :: props) ->
                    wf_string (fst kv) = true /\ wf (snd kv) = true).
    { intros [k' v'] Hin. rewrite forallb_forall in Hwf.
      specialize (Hwf _ Hin). now apply andb_true_iff in Hwf. }
    rewrite (parse_value_object f _ (pre ++ join (ch "," :: pre) parts
                                       ++ post ++ ch "}" :: rest));
      [|now apply skip_ws_stop].
    rewrite skip_ws_blank by assumption.
    destruct (join_head (ch "," :: pre) (member_text ser space (k, x))
                (map (member_text ser space) props)) as [t Et].
    unfold parts at 1. cbn [map]. rewrite Et.
    unfold member_text at 1, quote. cbn [app].
    rewrite skip_ws_stop by reflexivity.
    change (dquote =? ch "}") with false. cbn iota.
    apply (parse_members_serialized (parse_value f) ser pre post space rest
             Hpre Hpost Hsp ((k, x) :: props) ltac:(discriminate)).
    + (* every member is read *)
      rewrite Forall_forall in *. intros [k' v'] Hin.
      destruct (Hprop _ Hin) as [Hk' Hv']. cbn [fst snd] in *.
      split; [assumption|].
      intros lead' tail Hl Ht.
      apply (IH _ Hin Hv'); try assumption; [now apply blank_app|].
      pose proof (join_length_part (ch "," :: pre)
                    (member_text ser space (k', v')) parts
                    (in_map _ _ _ Hin)) as Hpart.
      unfold member_text in Hpart at 1. rewrite !length_app in Hpart.
      cbn [snd]. fold ser. lia.
    + assumption.
    + assert (Hcount : (length parts
                        <= length (join (ch "," :: pre) parts))%nat).
      { apply join_length_count. unfold parts.
        rewrite Forall_forall. intros p Hp.
        apply in_map_iff in Hp as ([k' v'] & <- & _).
        unfold member_text, quote. discriminate. }
      unfold parts in Hcount at 1. rewrite length_map in Hcount. lia.
    + exact Hord.
Qed.

(** [JSON.parse] of what [JSON.stringify] wrote is the normalized value:
    the text is always JSON, whatever the [space]. *)
Lemma parse_stringify (v : Value) (space : option Z) :
  wf v = true -> parse (stringify v space) = Some (normalize v).
Proof.
  intros Hwf. unfold parse, stringify.
  pose proof (parse_serialize (gap_of space) (blank_gap_of space) v Hwf
                (S (length (serialize (gap_of space) [] v))) [] [] []
                eq_refl eq_refl I ltac:(lia)) as H.
  cbn [app] in H. rewrite app_nil_r in H. rewrite H. reflexivity.
Qed.

End Stringify.

(* ===================================================================== *)
(** * What JSON.parse returns *)
(* ===================================================================== *)

Module ParsedValues.

Import Json StringFacts ObjectFacts ParseFacts.

Lemma forallb_rev {A : Type} (p : A -> bool) (l : list A) :
  forallb p l = true -> forallb p (rev l) = true.
Proof.
  rewrite !forallb_forall. intros H x Hx. apply H. now apply in_rev.
Qed.

Lemma parse_elements_wf (pv : JsString -> Parsed) :
  (forall s v r, pv s = Some (v, r) -> wf v = true) ->
  forall (n : nat) (s : JsString) (acc : list Value) (v : Value)
         (r : JsString),
  forallb wf acc = true ->
  parse_elements pv n s acc = Some (v, r) -> wf v = true.
Proof.
  intros Hpv. induction n as [|n IH]; intros s acc v r Hacc;
    [discriminate|].
  cbn [parse_elements].
  destruct (pv s) as [[v1 r1]|] eqn:E1; [|discriminate].
  apply Hpv in E1.
  destruct (skip_ws r1) as [|c r']; [discriminate|].
  assert (Hacc' : forallb wf (v1 :: acc) = true)
    by (cbn [forallb]; now rewrite E1, Hacc).
  destruct (c =? ch ","); [now apply IH|].
  destruct (c =? ch "]"); [|discriminate].
  intros H; injection H as <- _. cbn [wf].
  change (rev acc ++ [v1]) with (rev (v1 :: acc)). now apply forallb_rev.
Qed.

Lemma define_property_wf (k : JsString) (v : Value)
    (o : list (JsString * Value)) :
  wf_string k = true -> wf v = true -> wf_props o = true ->
  wf_props (define_property k v o) = true.
Proof.
  unfold wf_props. intros Hk Hv Ho.
  apply andb_true_iff in Ho as [H1 H2]. apply andb_true_iff. split.
  - now apply define_property_ordered.
  - apply define_property_all; [now rewrite Hk, Hv|assumption].
Qed.

Lemma parse_members_wf (pv : JsString -> Parsed) :
  (forall s v r, pv s = Some (v, r) -> wf v = true) ->
  forall (n : nat) (s : JsString) (acc : list (JsString * Value))
         (v : Value) (r : JsString),
  wf_props acc = true ->
  parse_members pv n s acc = Some (v, r) -> wf v = true.
Proof.
  intros Hpv. induction n as [|n IH]; intros s acc v r Hacc;
    [discriminate|].
  cbn [parse_members].
  destruct (skip_ws s) as [|q r0]; [discriminate|].
  destruct (q =? 34); [|discriminate].
  destruct (parse_string r0) as [[k r1]|] eqn:Ek; [|discriminate].
  apply parse_string_wf in Ek.
  destruct (skip_ws r1) as [|c1 r2]; [discriminate|].
  destruct (c1 =? ch ":"); [|discriminate].
  destruct (pv r2) as [[v1 r3]|] eqn:E1; [|discriminate].
  apply Hpv in E1.
  destruct (skip_ws r3) as [|c r4]; [discriminate|].
  pose proof (define_property_wf k v1 acc Ek E1 Hacc) as Hacc'.
  destruct (c =? ch ","); [now apply IH|].
  destruct (c =? ch "}"); [|discriminate].
  intros H; injection H as <- _. exact Hacc'.
Qed.

(** The values [parse_value] returns are in canonical form. *)
Lemma parse_value_wf (fuel : nat) :
  forall (s : JsString) (v : Value) (r : JsString),
  parse_value fuel s = Some (v, r) -> wf v = true.
Proof.
  induction fuel as [|f IH]; intros s v r; [discriminate|].
  cbn [parse_value].
  destruct (skip_ws s) as [|c r0]; [discriminate|].
  destruct (c =? ch "{").
  { destruct (skip_ws r0) as [|c' r']; [discriminate|].
    destruct (c' =? ch "}");
      [intros H; injection H as <- _; reflexivity|].
    now apply parse_members_wf. }
  destruct (c =? ch "[").
  { destruct (skip_ws r0) as [|c' r']; [discriminate|].
    destruct (c' =? ch "]");
      [intros H; injection H as <- _; reflexivity|].
    now apply parse_elements_wf. }
  destruct (c =? 34).
  { destruct (parse_string r0) as [[str r']|] eqn:E; [|discriminate].
    intros H; injection H as <- _. now apply parse_string_wf in E. }
  destruct (c =? ch "t");
    [destruct (strip_prefix _ r0); [|discriminate];
     intros H; injection H as <- _; reflexivity|].
  destruct (c =? ch "f");
    [destruct (strip_prefix _ r0); [|discriminate];
     intros H; injection H as <- _; reflexivity|].
  destruct (c =? ch "n");
    [destruct (strip_prefix _ r0); [|discriminate];
     intros H; injection H as <- _; reflexivity|].
  destruct (Num.lex_number (c :: r0)) as [[x r']|] eqn:E; [|discriminate].
  intros H; injection H as <- _.
  now apply NumberFacts.lex_number_canonical in E.
Qed.

Lemma parse_wf (text : JsString) (v : Value) :
  parse text = Some v -> wf v = true.
Proof.
  unfold parse.
  destruct (parse_value _ text) as [[v' r]|] eqn:E; [|discriminate].
  destruct (skip_ws r); [|discriminate].
  intros H; injection H as <-. now apply parse_value_wf in E.
Qed.

(** ** Structural equality after normalization *)








End ParsedValues.

(* ===================================================================== *)
(** * The fuel of the parser *)
(* ===================================================================== *)

Module Fuel.

Import Json ParseFacts.

Lemma skip_ws_length (s : JsString) :
  (length (skip_ws s) <= length s)%nat.
Proof.
  induction s as [|c s IH]; [simpl; lia|].
  cbn [skip_ws]. destruct (is_ws c); simpl in *; lia.
Qed.

Lemma skip_ws_cons_length (s : JsString) (c : CodeUnit) (r : JsString) :
  skip_ws s = c :: r -> (length r < length s)%nat.
Proof.
  intros H. pose proof (skip_ws_length s) as Hl. rewrite H in Hl.
  simpl in Hl. lia.
Qed.

Lemma cons_unit_length (c : CodeUnit) (res : option (JsString * JsString))
    (n : nat) (str r : JsString) :
  (forall str' r', res = Some (str', r') -> (length r' <= n)%nat) ->
  cons_unit c res = Some (str, r) -> (length r <= n)%nat.
Proof.
  intros H. destruct res as [[str' r']|]; simpl; [|discriminate].
  intros E; injection E as _ <-. now apply (H str').
Qed.

Lemma parse_string_length_bounded (n : nat) :
  forall s str r, (length s <= n)%nat ->
  parse_string s = Some (str, r) -> (length r < length s)%nat.
Proof.
  induction n as [|n IH]; intros s str r Hlen.
  - destruct s; [discriminate|simpl in Hlen; lia].
  - destruct s as [|c s']; [discriminate|]. cbn [parse_string].
    simpl in Hlen. cbn [length].
    destruct (c =? 34); [intros H; injection H as _ <-; lia|].
    assert (Hrec : forall t str' r', (length t <= length s')%nat ->
                   parse_string t = Some (str', r') ->
                   (length r' <= length s')%nat).
    { intros t str' r' Ht E. apply IH in E; lia. }
    intros H. enough (length r <= length s')%nat by lia. revert H.
    destruct (c =? 92).
    + destruct s' as [|x r1]; [discriminate|].
      destruct (x =? ch "u").
      * destruct r1 as [|h1 [|h2 [|h3 [|h4 r2]]]]; try discriminate.
        destruct (hex4_value h1 h2 h3 h4); [|discriminate].
        apply cons_unit_length. intros str' r'. apply Hrec. simpl. lia.
      * destruct (escape_value x); [|discriminate].
        apply cons_unit_length. intros str' r'. apply Hrec. simpl. lia.
    + destruct (c <? 32); [discriminate|].
      apply cons_unit_length. intros str' r'. now apply Hrec.
Qed.

Lemma parse_string_length (s str r : JsString) :
  parse_string s = Some (str, r) -> (length r < S (length s))%nat.
Proof.
  intros H. apply (parse_string_length_bounded (length s)) in H; lia.
Qed.

Lemma span_digits_length (s : JsString) :
  length s = (length (fst (Num.span_digits s))
              + length (snd (Num.span_digits s)))%nat.
Proof.
  rewrite (DigitFacts.span_digits_split s) at 1. apply length_app.
Qed.

Lemma lex_fraction_length (s fp r : JsString) :
  Num.lex_fraction s = Some (fp, r) -> (length r <= length s)%nat.
Proof.
  unfold Num.lex_fraction. destruct s as [|c s'];
    [intros H; injection H as _ <-; lia|].
  destruct (c =? ch ".").
  - pose proof (span_digits_length s') as Hl.
    destruct (fst (Num.span_digits s')); [discriminate|].
    intros H; injection H as _ <-. simpl in *. lia.
  - intros H; injection H as _ <-. lia.
Qed.

Lemma lex_exponent_length (s : JsString) (x : Z) (r : JsString) :
  Num.lex_exponent s = Some (x, r) -> (length r <= length s)%nat.
Proof.
  unfold Num.lex_exponent. destruct s as [|c s'];
    [intros H; injection H as _ <-; lia|].
  destruct ((c =? ch "e") || (c =? ch "E")).
  - set (sg := match s' with
               | c' :: r' => if c' =? ch "-" then (true, r')
                             else if c' =? ch "+" then (false, r')
                             else (false, s')
               | [] => (false, s')
               end).
    assert (Hsg : (length (snd sg) <= length s')%nat).
    { unfold sg. destruct s' as [|c' r']; [simpl; lia|].
      destruct (c' =? ch "-"); [simpl; lia|].
      destruct (c' =? ch "+"); simpl; lia. }
    pose proof (span_digits_length (snd sg)) as Hl.
    destruct (fst (Num.span_digits (snd sg))); [discriminate|].
    intros H; injection H as _ <-. simpl in *. lia.
  - intros H; injection H as _ <-. lia.
Qed.

Lemma lex_unsigned_length (neg : bool) (s : JsString) (x : Num.Number)
    (r : JsString) :
  Num.lex_unsigned neg s = Some (x, r) -> (length r < length s)%nat.
Proof.
  unfold Num.lex_unsigned.
  pose proof (span_digits_length s) as Hl.
  destruct (fst (Num.span_digits s)) as [|d ds]; [discriminate|].
  destruct (Num.int_part_ok (d :: ds)); [|discriminate].
  destruct (Num.lex_fraction _) as [[fp s2]|] eqn:Ef; [|discriminate].
  destruct (Num.lex_exponent s2) as [[ex s3]|] eqn:Ee; [|discriminate].
  apply lex_fraction_length in Ef. apply lex_exponent_length in Ee.
  intros H; injection H as _ <-. simpl in Hl. lia.
Qed.

Lemma lex_number_length (s : JsString) (x : Num.Number) (r : JsString) :
  Num.lex_number s = Some (x, r) -> (length r < length s)%nat.
Proof.
  unfold Num.lex_number. destruct s as [|c s']; [discriminate|].
  destruct (c =? ch "-"); intros H; apply lex_unsigned_length in H;
    simpl in *; lia.
Qed.

Lemma strip_prefix_length (p s r : JsString) :
  strip_prefix p s = Some r -> (length r <= length s)%nat.
Proof.
  revert s. induction p as [|c p IH]; intros s.
  - simpl. intros H; injection H as <-. lia.
  - destruct s as [|d s']; [discriminate|]. cbn [strip_prefix].
    destruct (c =? d); [|discriminate].
    intros H. apply IH in H. simpl. lia.
Qed.

(** ** The loops consume, and agree for parsers that agree *)

Lemma parse_elements_consumes (pv : JsString -> Parsed) :
  consumes pv ->
  forall n s acc v r,
  parse_elements pv n s acc = Some (v, r) -> (length r < length s)%nat.
Proof.
  intros Hpv. induction n as [|n IH]; intros s acc v r; [discriminate|].
  cbn [parse_elements].
  destruct (pv s) as [[v1 r1]|] eqn:E1; [|discriminate].
  apply Hpv in E1.
  destruct (skip_ws r1) as [|c r'] eqn:Es; [discriminate|].
  apply skip_ws_cons_length in Es.
  destruct (c =? ch ","); [intros H; apply IH in H; lia|].
  destruct (c =? ch "]"); [|discriminate].
  intros H; injection H as _ <-. lia.
Qed.

Lemma parse_members_consumes (pv : JsString -> Parsed) :
  consumes pv ->
  forall n s acc v r,
  parse_members pv n s acc = Some (v, r) -> (length r < length s)%nat.
Proof.
  intros Hpv. induction n as [|n IH]; intros s acc v r; [discriminate|].
  cbn [parse_members].
  destruct (skip_ws s) as [|q r0] eqn:E0; [discriminate|].
  apply skip_ws_cons_length in E0.
  destruct (q =? 34); [|discriminate].
  destruct (parse_string r0) as [[k r1]|] eqn:Ek; [|discriminate].
  apply parse_string_length in Ek.
  destruct (skip_ws r1) as [|c1 r2] eqn:E2; [discriminate|].
  apply skip_ws_cons_length in E2.
  destruct (c1 =? ch ":"); [|discriminate].
  destruct (pv r2) as [[v1 r3]|] eqn:E1; [|discriminate].
  apply Hpv in E1.
  destruct (skip_ws r3) as [|c r4] eqn:E4; [discriminate|].
  apply skip_ws_cons_length in E4.
  destruct (c =? ch ","); [intros H; apply IH in H; lia|].
  destruct (c =? ch "}"); [|discriminate].
  intros H; injection H as _ <-. lia.
Qed.

Lemma parse_value_consumes (fuel : nat) : consumes (parse_value fuel).
Proof.
  induction fuel as [|f IH]; intros s v r; [discriminate|].
  cbn [parse_value].
  destruct (skip_ws s) as [|c r0] eqn:E0; [discriminate|].
  pose proof (skip_ws_length s) as Hs. rewrite E0 in Hs. simpl in Hs.
  destruct (c =? ch "{").
  { destruct (skip_ws r0) as [|c' r'] eqn:E1; [discriminate|].
    apply skip_ws_cons_length in E1.
    destruct (c' =? ch "}"); [intros H; injection H as _ <-; lia|].
    intros H. apply (parse_members_consumes _ IH) in H. lia. }
  destruct (c =? ch "[").
  { destruct (skip_ws r0) as [|c' r'] eqn:E1; [discriminate|].
    apply skip_ws_cons_length in E1.
    destruct (c' =? ch "]"); [intros H; injection H as _ <-; lia|].
    intros H. apply (parse_elements_consumes _ IH) in H. lia. }
  destruct (c =? 34).
  { destruct (parse_string r0) as [[str r']|] eqn:E; [|discriminate].
    apply parse_string_length in E. intros H; injection H as _ <-. lia. }
  assert (Hkw : forall p w, with_value w (strip_prefix p r0) = Some (v, r) ->
                (length r < length s)%nat).
  { intros p w. destruct (strip_prefix p r0) eqn:E; [|discriminate].
    apply strip_prefix_length in E. intros H; injection H as _ <-. lia. }
  destruct (c =? ch "t"); [apply Hkw|].
  destruct (c =? ch "f"); [apply Hkw|].
  destruct (c =? ch "n"); [apply Hkw|].
  destruct (Num.lex_number (c :: r0)) as [[x r']|] eqn:E; [|discriminate].
  apply lex_number_length in E. intros H; injection H as _ <-.
  simpl in E. lia.
Qed.

Lemma parse_elements_agree (pv pv' : JsString -> Parsed) (b : nat) :
  consumes pv -> agree b pv pv' ->
  forall n n' s acc,
  (length s <= b)%nat -> (length s < n)%nat -> (length s < n')%nat ->
  parse_elements pv n s acc = parse_elements pv' n' s acc.
Proof.
  intros Hc Ha. induction n as [|n IH]; intros n' s acc Hb Hn Hn'; [lia|].
  destruct n' as [|n']; [lia|]. cbn [parse_elements].
  rewrite <- (Ha s Hb).
  destruct (pv s) as [[v1 r1]|] eqn:E1; [|reflexivity].
  apply Hc in E1.
  destruct (skip_ws r1) as [|c r'] eqn:Es; [reflexivity|].
  apply skip_ws_cons_length in Es.
  destruct (c =? ch ","); [|reflexivity].
  apply IH; lia.
Qed.

Lemma parse_members_agree (pv pv' : JsString -> Parsed) (b : nat) :
  consumes pv -> agree b pv pv' ->
  forall n n' s acc,
  (length s <= b)%nat -> (length s < n)%nat -> (length s < n')%nat ->
  parse_members pv n s acc = parse_members pv' n' s acc.
Proof.
  intros Hc Ha. induction n as [|n IH]; intros n' s acc Hb Hn Hn'; [lia|].
  destruct n' as [|n']; [lia|]. cbn [parse_members].
  destruct (skip_ws s) as [|q r0] eqn:E0; [reflexivity|].
  apply skip_ws_cons_length in E0.
  destruct (q =? 34); [|reflexivity].
  destruct (parse_string r0) as [[k r1]|] eqn:Ek; [|reflexivity].
  apply parse_string_length in Ek.
  destruct (skip_ws r1) as [|c1 r2] eqn:E2; [reflexivity|].
  apply skip_ws_cons_length in E2.
  destruct (c1 =? ch ":"); [|reflexivity].
  rewrite <- (Ha r2) by lia.
  destruct (pv r2) as [[v1 r3]|] eqn:E1; [|reflexivity].
  apply Hc in E1.
  destruct (skip_ws r3) as [|c r4] eqn:E4; [reflexivity|].
  apply skip_ws_cons_length in E4.
  destruct (c =? ch ","); [|reflexivity].
  apply IH; lia.
Qed.

Lemma parse_value_agree (b : nat) :
  forall f f' s,
  (length s <= b)%nat -> (length s < f)%nat -> (length s < f')%nat ->
  parse_value f s = parse_value f' s.
Proof.
  induction b as [|b IH]; intros f f' s Hb Hf Hf'.
  - destruct s; [|simpl in Hb; lia].
    destruct f; [lia|]. destruct f'; [lia|]. reflexivity.
  - destruct f as [|f]; [lia|]. destruct f' as [|f']; [lia|].
    cbn [parse_value].
    destruct (skip_ws s) as [|c r0] eqn:E0; [reflexivity|].
    apply skip_ws_cons_length in E0.
    assert (Hag : agree (length s - 1) (parse_value f) (parse_value f')).
    { intros t Ht. apply IH; lia. }
    destruct (c =? ch "{").
    { destruct (skip_ws r0) as [|c' r'] eqn:E1; [reflexivity|].
      destruct (c' =? ch "}"); [reflexivity|].
      apply (parse_members_agree _ _ _ (parse_value_consumes f) Hag); lia. }
    destruct (c =? ch "[").
    { destruct (skip_ws r0) as [|c' r'] eqn:E1; [reflexivity|].
      destruct (c' =? ch "]"); [reflexivity|].
      apply (parse_elements_agree _ _ _ (parse_value_consumes f) Hag); lia. }
    reflexivity.
Qed.

(** Any fuel above the length of the text gives what [parse] computes
    with: no [None] of [parse] comes from a lack of fuel. *)
Lemma parse_value_fuel (s : JsString) (f : nat) :
  (length s < f)%nat -> parse_value f s = parse_value (S (length s)) s.
Proof. intros H. apply (parse_value_agree (length s)); lia. Qed.

End Fuel.

(* ===================================================================== *)
(** * The text of a normalized value *)
(* ===================================================================== *)

Module Stable.

Import Json ParseFacts.

Lemma to_string_normalize (x : Num.Number) :
  Num.to_string (Num.normalize x) = Num.to_string x.
Proof.
  destruct x as [neg m e|neg]; [|reflexivity].
  cbn [Num.normalize]. destruct (m =? 0) eqn:E; [|reflexivity].
  cbn [Num.to_string]. now rewrite E.
Qed.

Lemma is_finite_normalize (x : Num.Number) :
  Num.is_finite (Num.normalize x) = Num.is_finite x.
Proof.
  destruct x as [neg m e|neg]; [|reflexivity].
  cbn [Num.normalize]. now destruct (m =? 0).
Qed.

(** Normalizing a value does not change its text: an infinity and null
    are both written null, both zeros are written 0. *)
Lemma serialize_normalize (gap : JsString) (v : Value) :
  forall indent,
  serialize gap indent (normalize v) = serialize gap indent v.
Proof.
  induction v as [| b | x | s | items IH | props IH] using Value_induction;
    intros indent; try reflexivity.
  - cbn [normalize serialize].
    destruct (Num.is_finite x) eqn:E; [|reflexivity].
    cbn [serialize]. now rewrite is_finite_normalize, E, to_string_normalize.
  - cbn [normalize serialize]. f_equal. rewrite map_map.
    apply map_ext_in. intros y Hy. rewrite Forall_forall in IH.
    now apply IH.
  - cbn [normalize serialize]. f_equal. rewrite map_map.
    apply map_ext_in. intros [k y] Hy. rewrite Forall_forall in IH.
    now rewrite (IH _ Hy).
Qed.

Lemma stringify_normalize (v : Value) (space : option Z) :
  stringify (normalize v) space = stringify v space.
Proof. apply serialize_normalize. Qed.

(** The text of a parsed value, parsed and written again with whatever
    [space], is the text of the value written with that [space]. *)
Lemma stringify_parse_stringify (v : Value) (space space' : option Z)
    (v' : Value) :
  wf v = true ->
  parse (stringify v space) = Some v' ->
  stringify v' space' = stringify v space'.
Proof.
  intros Hwf H. rewrite Stringify.parse_stringify in H by assumption.
  injection H as <-. apply stringify_normalize.
Qed.

End Stable.
(* ===================================================================== *)
(** * Properties of the handlers: requests, fetches and error answers *)
(* ===================================================================== *)

Lemma missing_id_text :
  Json.stringify (object1 (js "error") (Json.VString (js "missing id"))) None
  = error_body "missing id".
Proof. reflexivity. Qed.

Lemma not_found_text (v : Variant) :
  Json.stringify
    (object1 (js "error")
       (Json.VString
          (js match v with
              | StrictVariant => "file not found"
              | LenientVariant => "File not found"
              end))) None
  = error_body (not_found_message v).
Proof. destruct v; reflexivity. Qed.

Lemma skipn_length_app {A : Type} (l l' : list A) :
  skipn (length l) (l ++ l') = l'.
Proof. induction l as [|x l IH]; simpl; auto. Qed.

Lemma calls_logged (w : World) (u : JsString) : calls w (logged w u) = [u].
Proof. unfold calls, logged; simpl. apply skipn_length_app. Qed.

Lemma calls_none (w : World) : calls w w = [].
Proof.
  unfold calls. rewrite <- (app_nil_r (fetched w)) at 2.
  apply skipn_length_app.
Qed.

Lemma strict_run (engine : Engine) (context : EventContext) (w : World) :
  Strict.onRequestGet engine context w =
  match id_param context with
  | Some (c :: s) => after_fetch engine StrictVariant w (fileUrl_of (c :: s))
  | _ => (Returns (json_response 400 (error_body "missing id")), w)
  end.
Proof.
  unfold Strict.onRequestGet, id_param.
  rewrite missing_id_text, (not_found_text StrictVariant).
  destruct (URLSearchParams_get _ _) as [[|c s]|]; try reflexivity.
  unfold after_fetch, relayed, bind, fetch, json, JSON_stringify, ret, logged,
    truthy, negb, ToString, space_of.
  destruct (upstream w _) as [|res]; [reflexivity|].
  destruct (ok res); [|reflexivity].
  destruct (Json.parse (body res)) as [data|]; [|reflexivity].
  destruct (can_serialize engine data None); reflexivity.
Qed.

Lemma lenient_run (engine : Engine) (context : EventContext) (w : World) :
  Lenient.onRequestGet engine context w =
  after_fetch engine LenientVariant w
    (fileUrl_of (or_default (id_param context) (js "197"))).
Proof.
  unfold Lenient.onRequestGet, id_param.
  rewrite (not_found_text LenientVariant).
  unfold after_fetch, relayed, bind, fetch, json, JSON_stringify, ret, logged,
    negb, space_of.
  destruct (upstream w _) as [|res]; [reflexivity|].
  destruct (ok res); [|reflexivity].
  destruct (Json.parse (body res)) as [data|]; [|reflexivity].
  destruct (can_serialize engine data (Some 2)); reflexivity.
Qed.

Lemma after_fetch_calls (engine : Engine) (v : Variant) (w : World)
    (u : JsString) :
  calls w (snd (after_fetch engine v w u)) = [u].
Proof.
  unfold after_fetch.
  destruct (upstream w u) as [|res]; simpl; [apply calls_logged|].
  destruct (ok res); [destruct (Json.parse _)|]; apply calls_logged.
Qed.

Lemma variant_run (engine : Engine) (v : Variant) (context : EventContext)
    (w : World) :
  onRequestGet engine v context w =
  match v, id_param context with
  | StrictVariant, Some (c :: s) => after_fetch engine v w (fileUrl_of (c :: s))
  | StrictVariant, _ =>
      (Returns (json_response 400 (error_body "missing id")), w)
  | LenientVariant, x =>
      after_fetch engine v w (fileUrl_of (or_default x (js "197")))
  end.
Proof.
  destruct v; simpl.
  - rewrite strict_run. destruct (id_param context) as [[|c s]|]; reflexivity.
  - apply lenient_run.
Qed.

Lemma fileUrl_of_inj (i j : JsString) : fileUrl_of i = fileUrl_of j -> i = j.
Proof.
  unfold fileUrl_of. intros H.
  apply app_inv_head in H. apply app_inv_tail in H. exact H.
Qed.

(** C1: in the strict version a request without an [id], or with an empty
    one, is answered 400 with the body {"error":"missing id"} and the JSON
    content type, and the world is left as it was: nothing is fetched. *)
Theorem strict_missing_id_400 (engine : Engine) (context : EventContext)
    (w : World) :
  id_param context = None \/ id_param context = Some [] ->
  Strict.onRequestGet engine context w
  = (Returns {| status := 400;
                headers := [(js "Content-Type", js "application/json")];
                body := error_body "missing id" |}, w)
  /\ calls w (snd (Strict.onRequestGet engine context w)) = [].
Proof.
  intros H. rewrite strict_run.
  destruct H as [-> | ->]; simpl; split; try reflexivity; apply calls_none.
Qed.

Lemma strict_missing_id_400_witness :
  Strict.onRequestGet Sample.roomy Sample.empty_id Sample.unreachable
  = (Returns {| status := 400;
                headers := [(js "Content-Type", js "application/json")];
                body := error_body "missing id" |}, Sample.unreachable)
  /\ calls Sample.unreachable
       (snd (Strict.onRequestGet Sample.roomy Sample.empty_id
               Sample.unreachable)) = [].
Proof.
  apply (strict_missing_id_400 Sample.roomy Sample.empty_id Sample.unreachable).
  right. reflexivity.
Defined.



(** C4: in the lenient version a request without an [id] makes the handler
    fetch the URL of the template with the default id 197. *)
Theorem lenient_default_url (engine : Engine) (context : EventContext)
    (w : World) :
  id_param context = None ->
  calls w (snd (Lenient.onRequestGet engine context w))
  = [js "https://china-auto-dashboard.pages.dev/api/koubei_summary_197.json"].
Proof.
  intros H. rewrite lenient_run, after_fetch_calls, H. reflexivity.
Qed.

Lemma lenient_default_url_witness :
  calls Sample.unreachable
    (snd (Lenient.onRequestGet Sample.roomy Sample.no_id Sample.unreachable))
  = [js "https://china-auto-dashboard.pages.dev/api/koubei_summary_197.json"].
Proof.
  apply (lenient_default_url Sample.roomy Sample.no_id Sample.unreachable).
  reflexivity.
Defined.

(** C5: in both versions a non-empty [id] is put into the template as it
    is: the URL fetched is the prefix, the code units of [id] unchanged,
    and ".json". *)
Theorem url_is_template_verbatim (engine : Engine) (v : Variant)
    (context : EventContext)
    (w : World) (id : JsString) :
  id_param context = Some id ->
  id <> [] ->
  calls w (snd (onRequestGet engine v context w))
  = [js "https://china-auto-dashboard.pages.dev/api/koubei_summary_"
       ++ id ++ js ".json"].
Proof.
  intros H Hne. rewrite variant_run, H.
  destruct id as [|c s]; [contradiction|].
  destruct v; apply after_fetch_calls.
Qed.

Lemma url_is_template_verbatim_witness :
  calls (Sample.host 200 [])
    (snd (onRequestGet Sample.roomy LenientVariant
            (Sample.request_with [(js "id", js "../a b?x=1#y")])
            (Sample.host 200 [])))
  = [js "https://china-auto-dashboard.pages.dev/api/koubei_summary_"
       ++ js "../a b?x=1#y" ++ js ".json"].
Proof.
  apply (url_is_template_verbatim Sample.roomy LenientVariant
           (Sample.request_with [(js "id", js "../a b?x=1#y")])
           (Sample.host 200 []) (js "../a b?x=1#y")).
  - reflexivity.
  - discriminate.
Defined.

(** C9: in the lenient version an empty [id] behaves as an absent one: the
    default 197 is fetched and the outcome is that of the request without
    [id]; and no request at all makes this version fetch the URL of the
    empty id. *)
Theorem lenient_empty_id_as_absent (engine : Engine)
    (context context' : EventContext)
    (w : World) :
  id_param context = Some [] ->
  id_param context' = None ->
  Lenient.onRequestGet engine context w = Lenient.onRequestGet engine context' w
  /\ calls w (snd (Lenient.onRequestGet engine context w))
     = [js "https://china-auto-dashboard.pages.dev/api/koubei_summary_197.json"]
  /\ (forall (c : EventContext) (w0 : World),
        ~ In (fileUrl_of [])
             (calls w0 (snd (Lenient.onRequestGet engine c w0)))).
Proof.
  intros H H'. rewrite !lenient_run, H, H'. split; [reflexivity|].
  split; [rewrite after_fetch_calls; reflexivity|].
  intros c w0. rewrite lenient_run, after_fetch_calls.
  intros [Heq | []].
  apply fileUrl_of_inj in Heq.
  unfold or_default in Heq.
  destruct (id_param c) as [[|x s]|]; simpl in Heq; discriminate.
Qed.

Lemma lenient_empty_id_as_absent_witness :
  Lenient.onRequestGet Sample.roomy Sample.empty_id (Sample.host 404 [])
  = Lenient.onRequestGet Sample.roomy Sample.no_id (Sample.host 404 [])
  /\ calls (Sample.host 404 [])
       (snd (Lenient.onRequestGet Sample.roomy Sample.empty_id
                 (Sample.host 404 [])))
     = [js "https://china-auto-dashboard.pages.dev/api/koubei_summary_197.json"]
  /\ (forall (c : EventContext) (w0 : World),
        ~ In (fileUrl_of [])
             (calls w0 (snd (Lenient.onRequestGet Sample.roomy c w0)))).
Proof.
  apply (lenient_empty_id_as_absent Sample.roomy Sample.empty_id Sample.no_id
           (Sample.host 404 [])); reflexivity.
Defined.

(** C10: the answer of either handler depends on the request URL and on
    the status and body of the upstream answer only: two invocations with
    the same URL, in worlds whose answers agree on status and body, yield
    the same completion (status, headers and body), whatever the rest of
    the request, of the context and of the upstream answer. *)
Theorem handler_deterministic (engine : Engine) (v : Variant)
    (c1 c2 : EventContext)
    (w1 w2 : World) :
  url (request c1) = url (request c2) ->
  (forall u, same_answer (upstream w1 u) (upstream w2 u)) ->
  fst (onRequestGet engine v c1 w1) = fst (onRequestGet engine v c2 w2).
Proof.
  intros Hurl Hup.
  assert (Hid : id_param c1 = id_param c2)
    by (unfold id_param; now rewrite Hurl).
  assert (Hrun : forall u, fst (after_fetch engine v w1 u)
                   = fst (after_fetch engine v w2 u)).
  { intros u. unfold after_fetch. specialize (Hup u).
    destruct (upstream w1 u) as [|r1], (upstream w2 u) as [|r2];
      simpl in Hup; try contradiction; [reflexivity|].
    destruct Hup as [Hs Hb]. unfold ok. rewrite Hs, Hb.
    destruct ((200 <=? status r2) && (status r2 <=? 299)); [|reflexivity].
    destruct (Json.parse (body r2)); reflexivity. }
  rewrite !variant_run, Hid.
  destruct v; [destruct (id_param c2) as [[|c s]|]|]; auto.
Qed.

Lemma handler_deterministic_witness :
  fst (onRequestGet Sample.roomy StrictVariant Sample.id_197 (Sample.host 200
       (js "[1]")))
  = fst (onRequestGet Sample.roomy StrictVariant
           {| request := {| method := js "HEAD";
                            url := url (request Sample.id_197);
                            request_headers := [(js "Accept", js "*/*")] |};
              env := [(js "KEY", js "value")];
              params := [] |}
           {| upstream := fun _ =>
                Responds {| status := 200;
                            headers := [(js "ETag", js "abc")];
                            body := js "[1]" |};
              fetched := [js "https://example.test/earlier"] |}).
Proof.
  apply (handler_deterministic Sample.roomy StrictVariant).
  - reflexivity.
  - intros u. simpl. split; reflexivity.
Defined.

(** C8, as the code has it: the lenient version makes exactly one outbound
    call on every path, the strict version exactly one when the [id] is
    non-empty and none when it is missing or empty. *)
Theorem outbound_calls (engine : Engine) (v : Variant)
    (context : EventContext) (w : World) :
  length (calls w (snd (onRequestGet engine v context w)))
  = match v with
    | LenientVariant => 1%nat
    | StrictVariant => if truthy (id_param context) then 1%nat else 0%nat
    end.
Proof.
  rewrite variant_run.
  destruct v; [destruct (id_param context) as [[|c s]|]|]; simpl;
    rewrite ?after_fetch_calls, ?calls_none; reflexivity.
Qed.

(** C8 as stated fails: the strict handler answers a request without [id]
    without any outbound call. *)
Lemma one_call_on_every_path_fails :
  ~ (forall (v : Variant) (context : EventContext) (w : World),
       length (calls w (snd (onRequestGet Sample.roomy v context w))) = 1%nat).
Proof.
  intros H.
  specialize (H StrictVariant Sample.no_id Sample.unreachable).
  vm_compute in H. discriminate.
Qed.

(* ===================================================================== *)
(** * Properties of the handlers: the success answer and exceptions *)
(* ===================================================================== *)

Lemma status_ok (res : Response) :
  200 <= status res <= 299 -> ok res = true.
Proof. intros H. unfold ok. apply andb_true_iff. lia. Qed.








(** The other way a 2xx answer with a JSON body is not relayed: in an
    engine whose serializer takes [Sample.deep_limit] levels, the body of
    one more nested arrays is parsed, and [JSON.stringify] throws; no
    answer is returned. *)
Lemma deep_body_throws (v : Variant) :
  Json.parse Sample.deep_body = Some Sample.deep_value
  /\ fst (onRequestGet (Sample.stack Sample.deep_limit) v Sample.id_197
            (Sample.host 200 Sample.deep_body))
     = Throws RangeError.
Proof. split; [|destruct v]; vm_compute; reflexivity. Qed.




(** What the part after the fetch returns, when it returns. *)
Lemma after_fetch_returns (engine : Engine) (v : Variant) (w : World)
    (u : JsString) (out : Response) :
  fst (after_fetch engine v w u) = Returns out ->
  (exists res data,
     upstream w u = Responds res /\ 200 <= status res <= 299
     /\ Json.parse (body res) = Some data
     /\ can_serialize engine data (space_of v) = true
     /\ out = json_response 200 (Json.stringify data (space_of v)))
  \/ (exists res,
        upstream w u = Responds res /\ ~ (200 <= status res <= 299)
        /\ out = json_response 404 (error_body (not_found_message v))).
Proof.
  unfold after_fetch. destruct (upstream w u) as [|res]; [discriminate|].
  destruct (ok res) eqn:Hok.
  - unfold ok in Hok. apply andb_true_iff in Hok as [Hlo Hhi].
    apply Z.leb_le in Hlo. apply Z.leb_le in Hhi.
    destruct (Json.parse (body res)) as [data|] eqn:Hp; [|discriminate].
    cbn [fst]. unfold relayed.
    destruct (can_serialize engine data (space_of v)) eqn:Hroom;
      [|discriminate].
    intros H; injection H as <-. left. exists res, data. auto.
  - intros H; injection H as <-. right. exists res.
    repeat split; try reflexivity.
    intros Hr. apply status_ok in Hr. congruence.
Qed.




(* ===================================================================== *)
(** * Further properties of the handlers *)
(* ===================================================================== *)

Lemma ok_iff (res : Response) : ok res = true <-> 200 <= status res <= 299.
Proof. unfold ok. rewrite andb_true_iff, !Z.leb_le. tauto. Qed.

(** The URL a handler fetches, when it fetches: the template at the [id]
    of the request, or at 197 in the lenient version. *)
Lemma variant_cases (engine : Engine) (v : Variant) (context : EventContext)
    (w : World) :
  (v = StrictVariant
   /\ (id_param context = None \/ id_param context = Some [])
   /\ onRequestGet engine v context w
      = (Returns (json_response 400 (error_body "missing id")), w))
  \/ (exists u, onRequestGet engine v context w = after_fetch engine v w u).
Proof.
  rewrite variant_run.
  destruct v; [destruct (id_param context) as [[|c s]|]|]; eauto.
Qed.

(** X1: an answer has status 400 exactly when it comes from the strict
    version and the request has no [id] or an empty one; the lenient
    version never answers 400, and no upstream answer makes the strict
    version do so. *)
Theorem bad_request_iff (engine : Engine) (v : Variant)
    (context : EventContext) (w : World)
    (out : Response) :
  fst (onRequestGet engine v context w) = Returns out ->
  (status out = 400 <->
   v = StrictVariant
   /\ (id_param context = None \/ id_param context = Some [])).
Proof.
  intros Hout. rewrite variant_run in Hout.
  assert (Hfetch : forall u, fst (after_fetch engine v w u) = Returns out ->
                   status out <> 400).
  { intros u H. apply after_fetch_returns in H
      as [(res & data & _ & _ & _ & _ & ->)|(res & _ & _ & ->)];
      simpl; discriminate. }
  destruct v.
  - destruct (id_param context) as [[|c s]|] eqn:Hid.
    + injection Hout as <-. simpl. split; auto.
    + apply Hfetch in Hout. split; [contradiction|].
      intros [_ [H|H]]; discriminate.
    + injection Hout as <-. simpl. split; auto.
  - apply Hfetch in Hout. split; [contradiction|].
    intros [H _]; discriminate.
Qed.

Lemma bad_request_iff_witness :
  status (json_response 400 (error_body "missing id")) = 400 <->
  StrictVariant = StrictVariant
  /\ (id_param Sample.empty_id = None \/ id_param Sample.empty_id = Some []).
Proof.
  apply (bad_request_iff Sample.roomy StrictVariant Sample.empty_id
           (Sample.host 500 [])).
  reflexivity.
Defined.

(** X2: an answer with status 200 is never made up: the handler fetched a
    URL that answered 2xx with a body that is JSON, and the body of the
    answer is the text of the value of that body. *)
Theorem ok_answer_origin (engine : Engine) (v : Variant)
    (context : EventContext) (w : World)
    (out : Response) :
  fst (onRequestGet engine v context w) = Returns out ->
  status out = 200 ->
  exists u res data,
    calls w (snd (onRequestGet engine v context w)) = [u]
    /\ upstream w u = Responds res
    /\ 200 <= status res <= 299
    /\ Json.parse (body res) = Some data
    /\ body out = Json.stringify data (space_of v).
Proof.
  intros Hout Hstatus.
  destruct (variant_cases engine v context w) as [(_ & _ & E)|[u E]];
    rewrite E in *.
  - injection Hout as <-. discriminate.
  - apply after_fetch_returns in Hout
      as [(res & data & Hup & Hr & Hp & _ & ->)|(res & _ & _ & ->)];
      [|discriminate].
    exists u, res, data. rewrite after_fetch_calls. auto.
Qed.

Lemma ok_answer_origin_witness :
  exists u res data,
    calls (Sample.host 201 (js "[1, 2]"))
      (snd (onRequestGet Sample.roomy StrictVariant Sample.id_197
              (Sample.host 201 (js "[1, 2]")))) = [u]
    /\ upstream (Sample.host 201 (js "[1, 2]")) u = Responds res
    /\ 200 <= status res <= 299
    /\ Json.parse (body res) = Some data
    /\ body (json_response 200 (js "[1,2]"))
       = Json.stringify data (space_of StrictVariant).
Proof.
  apply (ok_answer_origin Sample.roomy StrictVariant Sample.id_197
           (Sample.host 201 (js "[1, 2]"))).
  - vm_compute. reflexivity.
  - reflexivity.
Defined.

(** X3: an answer with status 404 always stands for an upstream answer
    outside 200..299: the handler fetched a URL, the answer to that was
    not ok, and the body is the error text of the version. *)
Theorem not_found_origin (engine : Engine) (v : Variant)
    (context : EventContext) (w : World)
    (out : Response) :
  fst (onRequestGet engine v context w) = Returns out ->
  status out = 404 ->
  exists u res,
    calls w (snd (onRequestGet engine v context w)) = [u]
    /\ upstream w u = Responds res
    /\ ~ (200 <= status res <= 299)
    /\ body out = error_body (not_found_message v).
Proof.
  intros Hout Hstatus.
  destruct (variant_cases engine v context w) as [(_ & _ & E)|[u E]];
    rewrite E in *.
  - injection Hout as <-. discriminate.
  - apply after_fetch_returns in Hout
      as [(res & data & _ & _ & _ & _ & ->)|(res & Hup & Hr & ->)];
      [discriminate|].
    exists u, res. rewrite after_fetch_calls. auto.
Qed.

Lemma not_found_origin_witness :
  exists u res,
    calls (Sample.host 301 [])
      (snd (onRequestGet Sample.roomy LenientVariant Sample.no_id
                (Sample.host 301 [])))
    = [u]
    /\ upstream (Sample.host 301 []) u = Responds res
    /\ ~ (200 <= status res <= 299)
    /\ body (json_response 404 (error_body "File not found"))
       = error_body (not_found_message LenientVariant).
Proof.
  apply (not_found_origin Sample.roomy LenientVariant Sample.no_id
       (Sample.host 301 [])).
  - reflexivity.
  - reflexivity.
Defined.

(** X4: the body of every answer that is not a 200 is a JSON object with
    the one property "error", whose value is a string. *)
Theorem error_answer_shape (engine : Engine) (v : Variant)
    (context : EventContext)
    (w : World) (out : Response) :
  fst (onRequestGet engine v context w) = Returns out ->
  status out <> 200 ->
  exists message,
    Json.parse (body out)
    = Some (Json.VObject [(js "error", Json.VString message)]).
Proof.
  intros Hout Hstatus.
  destruct (variant_cases engine v context w) as [(_ & _ & E)|[u E]];
    rewrite E in *.
  - injection Hout as <-. exists (js "missing id"). vm_compute. reflexivity.
  - apply after_fetch_returns in Hout
      as [(res & data & _ & _ & _ & _ & ->)|(res & _ & _ & ->)];
      [now contradiction Hstatus|].
    exists (js (not_found_message v)). destruct v; vm_compute; reflexivity.
Qed.

Lemma error_answer_shape_witness :
  exists message,
    Json.parse (body (json_response 400 (error_body "missing id")))
    = Some (Json.VObject [(js "error", Json.VString message)]).
Proof.
  apply (error_answer_shape Sample.roomy StrictVariant Sample.empty_id
           Sample.unreachable).
  - reflexivity.
  - discriminate.
Defined.

(** X5: for a request with a non-empty [id] the two versions do the same
    but for the layout of the body and the text of the 404: they fetch the
    same URL, and they end in the same exception or in answers with the
    same status and headers, whose bodies for a 200 are texts of the same
    JSON value.  The one difference of kind: [JSON.stringify] is called
    with another [space], so one version can end in its RangeError where
    the other answers 200.  When the engine can serialize a value with
    both or with neither [space], there is no such difference. *)
Theorem versions_agree (engine : Engine) (context : EventContext)
    (w : World) (id : JsString) :
  id_param context = Some id ->
  id <> [] ->
  calls w (snd (Strict.onRequestGet engine context w))
  = calls w (snd (Lenient.onRequestGet engine context w))
  /\ same_outcome (fst (Strict.onRequestGet engine context w))
       (fst (Lenient.onRequestGet engine context w))
  /\ ((forall data, can_serialize engine data None
                    = can_serialize engine data (Some 2)) ->
      match fst (Strict.onRequestGet engine context w),
            fst (Lenient.onRequestGet engine context w) with
      | Returns _, Returns _ => True
      | Throws e, Throws e' => e = e'
      | _, _ => False
      end).
Proof.
  intros Hid Hne. destruct id as [|c s]; [contradiction|].
  rewrite strict_run, lenient_run, Hid.
  change (or_default (Some (c :: s)) (js "197")) with (c :: s).
  split; [now rewrite !after_fetch_calls|].
  unfold after_fetch, relayed, space_of.
  destruct (upstream w _) as [|res]; [split; reflexivity|].
  destruct (ok res).
  - destruct (Json.parse (body res)) as [data|] eqn:Hp;
      [|split; reflexivity].
    apply ParsedValues.parse_wf in Hp.
    split.
    + destruct (can_serialize engine data None),
               (can_serialize engine data (Some 2));
        cbn [fst same_outcome json_response status headers body];
        try reflexivity.
      repeat split. intros _. exists (Json.normalize data).
      now rewrite !Stringify.parse_stringify.
    + intros Hsame. rewrite (Hsame data).
      destruct (can_serialize engine data (Some 2)); cbn [fst]; auto.
  - cbn [fst same_outcome json_response status headers body].
    repeat split. discriminate.
Qed.

Lemma versions_agree_witness :
  calls (Sample.host 200 Sample.car_body)
    (snd (Strict.onRequestGet Sample.roomy Sample.id_197
            (Sample.host 200 Sample.car_body)))
  = calls (Sample.host 200 Sample.car_body)
      (snd (Lenient.onRequestGet Sample.roomy Sample.id_197
              (Sample.host 200 Sample.car_body)))
  /\ same_outcome
       (fst (Strict.onRequestGet Sample.roomy Sample.id_197
               (Sample.host 200 Sample.car_body)))
       (fst (Lenient.onRequestGet Sample.roomy Sample.id_197
               (Sample.host 200 Sample.car_body)))
  /\ ((forall data, can_serialize Sample.roomy data None
                    = can_serialize Sample.roomy data (Some 2)) ->
      match fst (Strict.onRequestGet Sample.roomy Sample.id_197
                   (Sample.host 200 Sample.car_body)),
            fst (Lenient.onRequestGet Sample.roomy Sample.id_197
                   (Sample.host 200 Sample.car_body)) with
      | Returns _, Returns _ => True
      | Throws e, Throws e' => e = e'
      | _, _ => False
      end).
Proof.
  apply (versions_agree Sample.roomy Sample.id_197
           (Sample.host 200 Sample.car_body) (js "197")).
  - reflexivity.
  - discriminate.
Defined.

(** X6: in the lenient version a request without [id], or with an empty
    one, has in every world the outcome of the request with the id 197:
    the same completion and the same fetch. *)
Theorem lenient_default_is_197 (engine : Engine)
    (context context' : EventContext)
    (w : World) :
  id_param context = None \/ id_param context = Some [] ->
  id_param context' = Some (js "197") ->
  Lenient.onRequestGet engine context w
  = Lenient.onRequestGet engine context' w.
Proof.
  intros H H'. rewrite !lenient_run, H'.
  destruct H as [-> | ->]; reflexivity.
Qed.

Lemma lenient_default_is_197_witness :
  Lenient.onRequestGet Sample.roomy Sample.no_id
       (Sample.host 200 Sample.car_body)
  = Lenient.onRequestGet Sample.roomy Sample.id_197
       (Sample.host 200 Sample.car_body).
Proof.
  apply (lenient_default_is_197 Sample.roomy Sample.no_id Sample.id_197).
  - left. reflexivity.
  - reflexivity.
Defined.



Lemma get_first_id (p q : list (JsString * JsString)) (value : JsString) :
  forallb not_id p = true ->
  URLSearchParams_get (p ++ (js "id", value) :: q) (js "id") = Some value.
Proof.
  induction p as [|[n x] p IH]; intros H.
  - cbn [app URLSearchParams_get].
    now rewrite StringFacts.string_eqb_refl.
  - cbn [forallb] in H. apply andb_true_iff in H as [H1 H2].
    unfold not_id in H1. cbn [fst] in H1. apply negb_true_iff in H1.
    cbn [app URLSearchParams_get]. rewrite H1. now apply IH.
Qed.

(** X9: of the query only the first [id] parameter counts: a request
    whose query has parameters of other names before it, and anything,
    further [id]s included, after it, has the outcome of the request whose
    query is that [id] alone. *)
Theorem first_id_counts (engine : Engine) (v : Variant)
    (context context' : EventContext)
    (w : World) (before after : list (JsString * JsString))
    (value : JsString) :
  query context = before ++ (js "id", value) :: after ->
  forallb not_id before = true ->
  query context' = [(js "id", value)] ->
  onRequestGet engine v context w = onRequestGet engine v context' w.
Proof.
  intros Hq Hbefore Hq'.
  assert (Hid : id_param context = id_param context').
  { unfold id_param. fold (query context) (query context').
    rewrite Hq, Hq', (get_first_id before after value Hbefore).
    symmetry. apply (get_first_id [] [] value eq_refl). }
  now rewrite !variant_run, Hid.
Qed.

Lemma first_id_counts_witness :
  onRequestGet Sample.roomy StrictVariant
    (Sample.request_with [(js "lang", js "ja"); (js "id", []);
                          (js "id", js "5")])
    (Sample.host 200 Sample.car_body)
  = onRequestGet Sample.roomy StrictVariant Sample.empty_id
      (Sample.host 200 Sample.car_body).
Proof.
  apply (first_id_counts Sample.roomy StrictVariant
           (Sample.request_with [(js "lang", js "ja"); (js "id", []);
                                 (js "id", js "5")])
           Sample.empty_id (Sample.host 200 Sample.car_body)
           [(js "lang", js "ja")] [(js "id", js "5")] []).
  - reflexivity.
  - reflexivity.
  - reflexivity.
Defined.
